(** * Atlas decoding pipeline: calibration, remapping and tone adjustment

    A shallow embedding of the three scripts that make up the decoding
    pipeline of the repository:

    - [scripts/kmeans_atlas_analysis.py]: the brightness calibrator, which
      binds K-means clusters to the fixed Cinzano table;
    - [scripts/decode_atlas_lightmap_kmeans.py]: the classified pixel
      remapper followed by a contrast enhancement;
    - [scripts/process_grayscale_atlas.py]: the direct-channel remapper
      followed by a contrast enhancement.

    Numeric conventions.  Python [int]s and [uint8] cells are [Z]; cluster
    ids (numpy labels, which index [cluster_centers_]) are [nat].  A
    floating-point number is the rational [Q] it denotes.  The calibrator's
    arithmetic on [float64] values (the brightness and the percentage of a
    cluster) rounds every operation to the nearest binary64 number, ties to
    even, as IEEE 754 does; the tone curves of the decoders, whose results
    are truncated to 8 bits, are computed on the exact rationals.  A raised
    Python exception, which every entry point catches to return [None], is
    [None] here as well. *)

From Stdlib Require Import ZArith QArith Qround Qminmax Qpower Qabs Lia Lqa.
From Stdlib Require Import Reals Qreals Lra.
From stdpp Require Import gmap strings list sorting.

Local Open Scope Z_scope.

(** ** Python and numpy primitives *)

(** [int(c)] on a float: truncation toward zero. *)
Definition py_int (c : Q) : Z := Z.quot (Qnum c) (Zpos (Qden c)).

(** [np.clip(x, lo, hi)], that is [minimum(maximum(x, lo), hi)]. *)
Definition np_clip (x lo hi : Q) : Q := Qmin (Qmax x lo) hi.

(** Storing a Python [int] into a cell of a [uint8] array: values outside
    [0, 255] raise [OverflowError]. *)
Definition store_uint8 (v : Z) : option Z :=
  if decide (0 <= v <= 255) then Some v else None.

(** ** Binary64 arithmetic

    The value of a correctly rounded operation is the binary64 number
    nearest to the exact result, the one with an even significand on a tie.
    [binade q] is the exponent of the power of two at or below [|q|]; a
    binary64 number in that binade is a multiple of [2 ^ (binade q - 52)],
    and of [2 ^ -1074] in the subnormal range.  Overflow is left out: the
    quantities of the calibrator are bounded by a few hundred. *)

Definition round_half_even (q : Q) : Z :=
  let f := Qfloor q in
  match (q - inject_Z f ?= 1 # 2)%Q with
  | Lt => f
  | Gt => f + 1
  | Eq => if Z.even f then f else f + 1
  end.

Definition binade (q : Q) : Z :=
  let k := Z.log2 (Z.abs (Qnum q)) - Z.log2 (Zpos (Qden q)) in
  if Qle_bool (2 ^ k) (Qabs q) then k else k - 1.

Definition round64 (q : Q) : Q :=
  if Qeq_bool q 0 then 0%Q
  else
    let e := Z.max (binade q - 52) (-1074) in
    Qred (inject_Z (round_half_even (q / 2 ^ e)) * 2 ^ e).

Definition fadd (x y : Q) : Q := round64 (x + y).
Definition fmul (x y : Q) : Q := round64 (x * y).
Definition fdiv (x y : Q) : Q := round64 (x / y).

(** [sorted(l, key=...)] is stable.  [py_sorted le] inserts the elements
    from the right, each one in front of the first element it is [le] to,
    so that equal keys keep their original order. *)
Section PySorted.
Context {A : Type} (le : A → A → bool).

Fixpoint insert_stable (x : A) (l : list A) : list A :=
  match l with
  | [] => [x]
  | y :: l' => if le x y then x :: l else y :: insert_stable x l'
  end.

Definition py_sorted (l : list A) : list A := foldr insert_stable [] l.
End PySorted.

(** [collections.Counter(labels)]: the number of occurrences of each label,
    in order of first occurrence. *)
Fixpoint counter_add (k : nat) (c : list (nat * nat)) : list (nat * nat) :=
  match c with
  | [] => [(k, 1%nat)]
  | (k', n) :: c' =>
      if decide (k = k') then (k', S n) :: c' else (k', n) :: counter_add k c'
  end.

Definition Counter (labels : list nat) : list (nat * nat) :=
  foldl (λ c k, counter_add k c) [] labels.

(** ** The K-means model (scikit-learn)

    A fitted model is its list of centroids, [cluster_centers_]; the id of a
    cluster is its position.  scikit-learn is not part of the repository:
    [predict] stands in for its classifier with the search for the centroid
    nearest in squared Euclidean distance, the lowest position on a tie.
    What is proved of the decoders never looks inside [predict]: it holds
    for whatever cluster id the classifier returns. *)

Definition pixel : Type := Z * Z * Z.
Definition centroid : Type := Q * Q * Q.

Definition sq_dist (p : pixel) (c : centroid) : Q :=
  let '(r, g, b) := p in
  let '(cr, cg, cb) := c in
  ((inject_Z r - cr) * (inject_Z r - cr)
   + (inject_Z g - cg) * (inject_Z g - cg)
   + (inject_Z b - cb) * (inject_Z b - cb))%Q.

(** [argmin_from i best d cs]: scan [cs], whose first element has position
    [i], keeping the position [best] of the smallest distance [d] seen. *)
Fixpoint argmin_from (p : pixel) (i best : nat) (d : Q) (cs : list centroid) : nat :=
  match cs with
  | [] => best
  | c :: cs' =>
      if Qlt_le_dec (sq_dist p c) d
      then argmin_from p (S i) i (sq_dist p c) cs'
      else argmin_from p (S i) best d cs'
  end.

Definition predict (kmeans_model : list centroid) (p : pixel) : nat :=
  match kmeans_model with
  | [] => 0%nat
  | c :: cs => argmin_from p 1 0 (sq_dist p c) cs
  end.

(** ** kmeans_atlas_analysis.py: the brightness calibrator *)

(** The value stored in [color_mapping] for one cluster. *)
Record cluster_data := {
  cd_rgb : Z * Z * Z;
  cd_count : nat;
  cd_percentage : Q;
  cd_brightness : Q;
  cd_type : string
}.

(** The value stored in [final_mapping] for one cluster. *)
Record mapping_entry := {
  rgb : Z * Z * Z;
  category : string;
  intensity : Z;
  ratio_range : string
}.

Definition classify_cluster_color (rgb : Z * Z * Z) (brightness : Q) : string :=
  if Qlt_le_dec brightness 10 then "Very Dark"
  else if Qlt_le_dec brightness 30 then "Dark"
  else if Qlt_le_dec brightness 60 then "Medium Dark"
  else if Qlt_le_dec brightness 100 then "Medium"
  else if Qlt_le_dec brightness 150 then "Medium Light"
  else if Qlt_le_dec brightness 200 then "Light"
  else "Very Light".

(** [sum(center)]: Python's [sum] starts from 0 and adds the [float64]
    channels left to right. *)
Definition py_sum3 (center : centroid) : Q :=
  let '(r, g, b) := center in fadd (fadd (fadd 0 r) g) b.

(** The body of the loop over [sorted_clusters] (lines 94-112). *)
Definition cluster_entry (npixels : nat) (center : centroid) (count : nat)
  : cluster_data :=
  let '(cr, cg, cb) := center in
  let rgb := (py_int cr, py_int cg, py_int cb) in
  let percentage :=
    fmul (fdiv (inject_Z (Z.of_nat count)) (inject_Z (Z.of_nat npixels))) 100 in
  let brightness := fdiv (py_sum3 center) 3 in
  {| cd_rgb := rgb; cd_count := count; cd_percentage := percentage;
     cd_brightness := brightness;
     cd_type := classify_cluster_color rgb brightness |}.

(** [sorted(cluster_counts.items(), key=lambda x: x[1], reverse=True)]. *)
Definition sorted_clusters (cluster_counts : list (nat * nat)) : list (nat * nat) :=
  py_sorted (λ x y, bool_decide (y.2 ≤ x.2)%nat) cluster_counts.

(** [color_mapping], in insertion order; the keys are those of the counter,
    so no key is inserted twice.  [cluster_centers[cluster_id]] raises
    [IndexError] out of range. *)
Definition color_mapping (cluster_centers : list centroid) (npixels : nat)
    (clusters : list (nat * nat)) : option (list (nat * cluster_data)) :=
  mapM (λ '(cluster_id, count),
          center ← cluster_centers !! cluster_id;
          Some (cluster_id, cluster_entry npixels center count))
       clusters.

(** [sorted(color_mapping.items(), key=lambda x: x[1]['brightness'])]. *)
Definition brightness_sorted (cm : list (nat * cluster_data))
  : list (nat * cluster_data) :=
  py_sorted (λ x y, Qle_bool (cd_brightness x.2) (cd_brightness y.2)) cm.

(** The expanded Cinzano scale: (category name, ratio range, intensity). *)
Definition cinzano_categories : list (string * string * Z) :=
  [ ("Black 1", "<0.01", 0);
    ("Black 2", "0.01-0.06", 8);
    ("Dark Gray 1", "0.06-0.11", 16);
    ("Dark Gray 2", "0.11-0.19", 24);
    ("Blue 1", "0.19-0.33", 32);
    ("Blue 2", "0.33-0.58", 48);
    ("Green 1", "0.58-1.00", 64);
    ("Green 2", "1.00-1.73", 80);
    ("Yellow 1", "1.73-3.00", 96);
    ("Yellow 2", "3.00-5.20", 128);
    ("Orange 1", "5.20-9.00", 160);
    ("Orange 2", "9.00-15.59", 192);
    ("Red 1", "15.59-27.00", 224);
    ("Red 2", "27.00-46.77", 240);
    ("White 1", ">46.77", 255);
    ("White 2/Border", "Border", 0) ].

(** The loop [for i, (cluster_id, cluster_data) in enumerate(...)] of lines
    143-155, started at index [i]: beyond the end of the table the guard
    [i < len(cinzano_categories)] skips the cluster. *)
Fixpoint bind_categories (i : nat) (clusters : list (nat * cluster_data))
    (final_mapping : gmap nat mapping_entry) : gmap nat mapping_entry :=
  match clusters with
  | [] => final_mapping
  | (cluster_id, cluster_data) :: rest =>
      bind_categories (S i) rest
        match cinzano_categories !! i with
        | Some (category_name, ratio_range, intensity) =>
            <[cluster_id := {| rgb := cd_rgb cluster_data;
                               category := category_name;
                               intensity := intensity;
                               ratio_range := ratio_range |}]> final_mapping
        | None => final_mapping
        end
  end.

(** [analyze_atlas_with_kmeans], from the output of [KMeans.fit_predict]:
    the centroids and the label of every sampled pixel. *)
Definition analyze_atlas_with_kmeans (cluster_centers : list centroid)
    (cluster_labels : list nat) : option (gmap nat mapping_entry) :=
  let cluster_counts := Counter cluster_labels in
  cm ← color_mapping cluster_centers (length cluster_labels)
         (sorted_clusters cluster_counts);
  Some (bind_categories 0 (brightness_sorted cm) ∅).

(** ** Pillow: [ImageEnhance.Contrast] and [convert('RGB')]

    The two decoders hand their lightmap to Pillow.  The model follows
    Pillow's [ImageEnhance.py] and [libImaging/Blend.c] on images of mode
    [L], a list of rows of 8-bit values. *)

(** [ImageStat.Stat(image).mean[0]]: the sum of the pixels over their
    number; an image without pixels raises [ZeroDivisionError]. *)
Definition stat_mean (image : list (list Z)) : option Q :=
  let px := concat image in
  match px with
  | [] => None
  | _ => Some (Qdiv (inject_Z (foldr Z.add 0 px))
                    (inject_Z (Z.of_nat (length px))))
  end.

(** One cell of [Image.blend(im1, im2, alpha)]: the images are copied for
    [alpha] 0 and 1, interpolated for [alpha] between them, and otherwise
    extrapolated and clipped to [0, 255]. *)
Definition blend_value (in1 in2 : Z) (alpha : Q) : Z :=
  if Qeq_bool alpha 0 then in1
  else if Qeq_bool alpha 1 then in2
  else
    let temp := (inject_Z in1 + alpha * inject_Z (in2 - in1))%Q in
    if Qle_bool 0 alpha && Qle_bool alpha 1 then py_int temp
    else if Qle_bool temp 0 then 0
    else if Qle_bool 255 temp then 255
    else py_int temp.

(** [ImageEnhance.Contrast(image).enhance(factor)]: blend the uniform image
    of the rounded mean, [int(mean + 0.5)], with the image. *)
Definition Contrast_enhance (image : list (list Z)) (factor : Q)
  : option (list (list Z)) :=
  m ← stat_mean image;
  let mean := py_int (Qplus m (1 # 2)) in
  Some (map (map (λ v, blend_value mean v factor)) image).

(** [image.convert('RGB')] on a mode [L] image. *)
Definition convert_RGB (image : list (list Z)) : list (list pixel) :=
  map (map (λ v, (v, v, v))) image.

(** ** decode_atlas_lightmap_kmeans.py: the classified remapper *)

Definition find_closest_cluster (pixel_rgb : pixel) (kmeans_model : list centroid)
  : nat :=
  predict kmeans_model pixel_rgb.

(** The intensity computed for one pixel (lines 119-132). *)
Definition pixel_intensity (color_mapping : gmap nat mapping_entry)
    (kmeans_model : list centroid) (pixel_rgb : pixel) : Z :=
  let cluster_id := find_closest_cluster pixel_rgb kmeans_model in
  match color_mapping !! cluster_id with
  | Some entry =>
      if decide (category entry = "White 2/Border") then 0 else intensity entry
  | None => 0
  end.

(** [lightmap_array] after the loop over the rows and columns. *)
Definition lightmap_array (color_mapping : gmap nat mapping_entry)
    (kmeans_model : list centroid) (img_array : list (list pixel))
  : option (list (list Z)) :=
  mapM (mapM (λ pixel_rgb,
                store_uint8 (pixel_intensity color_mapping kmeans_model pixel_rgb)))
       img_array.

(** [decode_atlas_to_lightmap_kmeans], from the resized RGB grid to the
    image that is saved. *)
Definition decode_atlas_to_lightmap_kmeans (color_mapping : gmap nat mapping_entry)
    (kmeans_model : list centroid) (img_array : list (list pixel))
  : option (list (list pixel)) :=
  lightmap_img ← lightmap_array color_mapping kmeans_model img_array;
  enhanced ← Contrast_enhance lightmap_img (13 # 10);
  Some (convert_RGB enhanced).

(** ** process_grayscale_atlas.py: the direct-channel remapper *)

Definition max_atlas_value : Q := 37.

(** [img_array[:, :, 0].astype(np.float32)], one cell. *)
Definition grayscale_value (p : pixel) : Q := inject_Z p.1.1.

Definition normalized (g : Q) : Q := np_clip (g / max_atlas_value) 0 1.

(** [(np.power(x, 0.7) * 255).astype(np.uint8)] for [x] between 0 and 1,
    the range of [np.clip].  The power is irrational in general; its scaled
    truncation is the largest [n] with [(n/255)^10 <= x^7], found by
    searching downward from 255. *)
Definition below_power (n : Z) (x : Q) : bool :=
  Qle_bool ((inject_Z n / 255) ^ 10) (x ^ 7).

Fixpoint search_power (k : nat) (x : Q) : Z :=
  match k with
  | O => 0
  | S k' => if below_power (Z.of_nat k) x then Z.of_nat k else search_power k' x
  end.

Definition power_scale_uint8 (x : Q) : Z := search_power 255 x.

Definition lightmap_value (p : pixel) : Z :=
  power_scale_uint8 (normalized (grayscale_value p)).

(** [process_grayscale_atlas], from the resized RGB grid to the image that
    is saved. *)
Definition process_grayscale_atlas (img_array : list (list pixel))
  : option (list (list pixel)) :=
  let lightmap_img := map (map lightmap_value) img_array in
  contrasted ← Contrast_enhance lightmap_img (12 # 10);
  Some (convert_RGB contrasted).

(** ** process_heatmap.py: the maximum-channel decoder *)

(** [ImageEnhance.Brightness(image).enhance(factor)]: blend the black image
    with the image. *)
Definition Brightness_enhance (image : list (list Z)) (factor : Q)
  : list (list Z) :=
  map (map (λ v, blend_value 0 v factor)) image.

(** [np.max(img_array, axis=2)], one cell. *)
Definition np_max3 (p : pixel) : Z := Z.max (Z.max p.1.1 p.1.2) p.2.

(** [process_heatmap], from the resized RGB grid to the image that is
    saved. *)
Definition process_heatmap (img_array : list (list pixel))
  : option (list (list pixel)) :=
  let intensity_array := map (map np_max3) img_array in
  contrasted ← Contrast_enhance intensity_array (25 # 10);
  let brightened := Brightness_enhance contrasted (18 # 10) in
  Some (convert_RGB brightened).

(** ** Power curves of the other decoders

    [int(x ** (num/den) * 255)], capped at 255, for [x] not below 0: the
    largest [n] up to 255 with [(n/255)^den <= x^num], found by searching
    downward from [k]. *)
Definition below_root (num den : positive) (n : Z) (x : Q) : bool :=
  Qle_bool ((inject_Z n / 255) ^ Zpos den) (x ^ Zpos num).

Fixpoint search_root (num den : positive) (k : nat) (x : Q) : Z :=
  match k with
  | O => 0
  | S k' =>
      if below_root num den (Z.of_nat k) x then Z.of_nat k
      else search_root num den k' x
  end.

(** process_nightlights.py, [enhance_for_emissive]: the table
    [[int(((i / 255.0) ** gamma) * 255) for i in range(256)]] with
    [gamma = 0.8]. *)
Definition gamma_table : list Z :=
  map (λ i : nat, search_root 4 5 255 (inject_Z (Z.of_nat i) / 255)) (seq 0 256).

(** decode_atlas_lightmap.py, [brightness_to_intensity]: the exponent is
    [1.0 / 2.2], that is 5/11.  A negative brightness makes the power a
    complex number, on which [int] raises; [int(enhanced * 255)] is searched
    up to 255, where [min] caps the result in any case. *)
Definition brightness_to_intensity (brightness : Q) : option Z :=
  if Qlt_le_dec brightness 0 then None
  else
    let normalized := (brightness / 255)%Q in
    let intensity := search_root 5 11 255 normalized in
    Some (Z.min 255 (Z.max 0 intensity)).

(** ** Vocabulary of the statements *)

(** The border flag of a bound category, as line 129 of the decoder tests
    it: the category is the one named [White 2/Border]. *)
Definition is_border (entry : mapping_entry) : bool :=
  bool_decide (category entry = "White 2/Border").

(** The entry bound to a cluster whose data is [d] by the table row [row]. *)
Definition bound_entry (d : cluster_data) (row : string * string * Z)
  : mapping_entry :=
  {| rgb := cd_rgb d; category := row.1.1; intensity := row.2;
     ratio_range := row.1.2 |}.

(** The intensity column of the table. *)
Definition table_intensities : list Z := map snd cinzano_categories.

(** A mapping whose intensities fit the cells of the lightmap. *)
Definition mapping_fits (color_mapping : gmap nat mapping_entry) : Prop :=
  ∀ id entry, color_mapping !! id = Some entry → 0 <= intensity entry <= 255.

(** The direct-channel formula as the specification words it, in the real
    numbers: the raw value over 37, clamped to [0, 1], raised to the power
    0.7 (which is 0 at 0) and multiplied by 255. *)
Definition spec_power (x y : R) : R :=
  if Req_dec_T x 0 then 0%R else Rpower x y.

Definition spec_direct_channel (raw : Z) : R :=
  (255 * spec_power (Rmin (Rmax (IZR raw / 37) 0) 1) (7 / 10))%R.

(** [c[k]] on a counter: the count held for a label, 0 when it is absent. *)
Fixpoint counter_get (k : nat) (c : list (nat * nat)) : nat :=
  match c with
  | [] => 0%nat
  | (k', n) :: c' => if decide (k = k') then n else counter_get k c'
  end.

(** The number of sampled pixels that carry a label. *)
Definition occurrences (k : nat) (labels : list nat) : nat :=
  length (filter (λ l, l = k) labels).

(** The brightness the calibrator computes for a centroid:
    [sum(center) / 3] in [float64]. *)
Definition centroid_brightness (center : centroid) : Q :=
  fdiv (py_sum3 center) 3.

(** An RGB grid all of whose channel values are 8-bit. *)
Definition grid_in_range (image : list (list pixel)) : Prop :=
  ∀ row p, row ∈ image → p ∈ row →
    0 <= p.1.1 <= 255 ∧ 0 <= p.1.2 <= 255 ∧ 0 <= p.2 <= 255.

(** Sample inputs.  The labels of four sampled pixels that leave fourteen
    of the sixteen centroids without a pixel, as on an image of two
    colours. *)
Definition sparse_labels : list nat := [0; 15; 15; 15]%nat.

(** Two centroids with the same three [float64] channels, 60.6809799084323,
    138.7784524504677 and 94.3385674697602, in opposite orders: the exact
    means are equal, the [float64] ones are 97.93266660955341 and
    97.9326666095534. *)
Definition near_tie_a : centroid :=
  (8540088703252883 # 140737488355328, 4882832708929535 # 35184372088832,
   6638486520366851 # 70368744177664)%Q.
Definition near_tie_b : centroid :=
  (6638486520366851 # 70368744177664, 4882832708929535 # 35184372088832,
   8540088703252883 # 140737488355328)%Q.

(** The two centroids among sixteen. *)
Definition near_tie_centers : list centroid :=
  near_tie_a :: near_tie_b
  :: map (λ k : nat, let v := inject_Z (17 * Z.of_nat k) in (v, v, v))
       (seq 2 14).

(** Sixteen gray centroids, 0, 17, ..., 255, each labelling one pixel. *)
Definition sixteen_centers : list centroid :=
  map (λ k : nat, let v := inject_Z (17 * Z.of_nat k) in (v, v, v)) (seq 0 16).
Definition sixteen_labels : list nat := seq 0 16.

(** The mappings the calibrator makes of the two samples. *)
Definition sparse_mapping : gmap nat mapping_entry :=
  default ∅ (analyze_atlas_with_kmeans sixteen_centers sparse_labels).
Definition sixteen_mapping : gmap nat mapping_entry :=
  default ∅ (analyze_atlas_with_kmeans sixteen_centers sixteen_labels).

(** The intensities a remapped pixel can take. *)
Definition remapped_levels : list Z :=
  [0; 8; 16; 24; 32; 48; 64; 80; 96; 128; 160; 192; 224; 240; 255].

(** * Facts about the primitives *)

(** Rounding to an integer moves a number by at most one half. *)
Lemma round_half_even_near (q : Q) :
  (- (1 # 2) <= inject_Z (round_half_even q) - q <= 1 # 2)%Q.
Proof.
  unfold round_half_even.
  pose proof (Qfloor_le q) as Hlo. pose proof (Qlt_floor q) as Hhi.
  rewrite inject_Z_plus in Hhi. change (inject_Z 1) with 1%Q in Hhi.
  destruct (Qcompare_spec (q - inject_Z (Qfloor q)) (1 # 2)) as [He|Hl|Hg].
  - destruct (Z.even (Qfloor q));
      [|rewrite inject_Z_plus; change (inject_Z 1) with 1%Q]; Lqa.lra.
  - Lqa.lra.
  - rewrite inject_Z_plus. change (inject_Z 1) with 1%Q. Lqa.lra.
Qed.

(** A number below [2 ^ m] lies in a binade below [m]. *)
Lemma binade_below (q : Q) (m : Z) :
  0 <= m → (Qabs q < 2 ^ m)%Q → binade q <= m - 1.
Proof.
  intros Hm Hq. unfold binade.
  set (k := Z.log2 (Z.abs (Qnum q)) - Z.log2 (Z.pos (Qden q))).
  destruct (Qle_bool (2 ^ k) (Qabs q)) eqn:Hle.
  - apply Qle_bool_imp_le in Hle.
    assert (2 ^ k < 2 ^ m)%Q as Hlt by (eapply Qle_lt_trans; eauto).
    apply Qpower_lt_compat_l_inv in Hlt; [lia|reflexivity].
  - assert (k <= m); [|lia]. unfold k.
    destruct (decide (Qnum q = 0)) as [Hz|Hnz].
    { rewrite Hz. change (Z.log2 (Z.abs 0)) with 0.
      pose proof (Z.log2_nonneg (Z.pos (Qden q))). lia. }
    assert (Z.abs (Qnum q) < Z.pos (Qden q) * 2 ^ m) as Hlt.
    { change (2 ^ m)%Q with (inject_Z 2 ^ m)%Q in Hq.
      rewrite <- Zpower_Qpower in Hq by done.
      destruct q as [n d]. unfold Qabs, Qlt in Hq. simpl in *. lia. }
    assert (Z.log2 (Z.abs (Qnum q)) <= Z.log2 (Z.pos (Qden q) * 2 ^ m)) as Hl.
    { apply Z.log2_le_mono. lia. }
    rewrite Z.log2_mul_pow2 in Hl by lia. lia.
Qed.

(** The rounding error of a number below [2 ^ m] is at most half a unit in
    the last place of the binade [m - 1]. *)
Lemma round64_near (q : Q) (m : Z) :
  0 <= m → (Qabs q < 2 ^ m)%Q → (Qabs (round64 q - q) <= 2 ^ (m - 54))%Q.
Proof.
  intros Hm Hq. unfold round64.
  destruct (Qeq_bool q 0) eqn:Hz.
  - apply Qeq_bool_eq in Hz. rewrite Hz.
    apply Qpower_0_le. done.
  - set (e := Z.max (binade q - 52) (-1074)).
    assert (e <= m - 53) as He.
    { pose proof (binade_below q m Hm Hq). unfold e. lia. }
    rewrite Qred_correct.
    pose proof (round_half_even_near (q / 2 ^ e)) as [Hlo Hhi].
    assert (0 < 2 ^ e)%Q as Hpos by (by apply Qpower_0_lt).
    assert (2 ^ e <= 2 ^ (m - 53))%Q as Hpow.
    { apply Qpower_le_compat_l; [done|]. done. }
    assert (2 ^ (m - 53) == 2 * 2 ^ (m - 54))%Q as Hstep.
    { replace (m - 53) with (1 + (m - 54)) by lia.
      rewrite Qpower_plus by done. reflexivity. }
    set (n := inject_Z (round_half_even (q / 2 ^ e))) in *.
    assert (q == q / 2 ^ e * 2 ^ e)%Q as Hq'.
    { field. intros H0. rewrite H0 in Hpos. by apply Qlt_irrefl in Hpos. }
    apply Qabs_Qle_condition.
    set (t := (q / 2 ^ e)%Q) in *.
    set (p := (2 ^ e)%Q) in *. set (p' := (2 ^ (m - 54))%Q) in *.
    split; Lqa.nra.
Qed.

(** The same bound for a number known to lie in an interval inside
    [(- 2 ^ m, 2 ^ m)], with the interval its rounding lies in. *)
Lemma round64_near_bound (q : Q) (m : Z) (lo hi : Q) :
  0 <= m → (- 2 ^ m < lo)%Q → (hi < 2 ^ m)%Q → (lo <= q <= hi)%Q →
  (lo - 2 ^ (m - 54) <= round64 q <= hi + 2 ^ (m - 54))%Q
  ∧ (- 2 ^ (m - 54) <= round64 q - q <= 2 ^ (m - 54))%Q.
Proof.
  intros Hm Hlo Hhi [Hq1 Hq2].
  assert (Qabs q < 2 ^ m)%Q as Habs.
  { apply Qabs_case; intros; Lqa.lra. }
  pose proof (round64_near q m Hm Habs) as Hn.
  apply Qabs_Qle_condition in Hn. split; split; Lqa.lra.
Qed.

(** Roundings that Python shows: [0.1], [0.1 + 0.2], and [(1 / 3) * 100],
    which is 33.33333333333333, three of which stay below 100. *)
Lemma round64_samples :
  round64 (1 # 10) = (3602879701896397 # 36028797018963968)%Q
  ∧ fadd (round64 (1 # 10)) (round64 (2 # 10))
    = (1351079888211149 # 4503599627370496)%Q
  ∧ fmul (fdiv 1 3) 100 = (2345624805922133 # 70368744177664)%Q
  ∧ (3 * fmul (fdiv 1 3) 100 < 100)%Q.
Proof. repeat split; by vm_compute. Qed.

(** For channels in the 8-bit range the [float64] brightness is within
    [2^-43] of the exact mean of the three channels. *)
Lemma centroid_brightness_near (r g b : Q) :
  (0 <= r <= 255)%Q → (0 <= g <= 255)%Q → (0 <= b <= 255)%Q →
  (Qabs (centroid_brightness (r, g, b) - (r + g + b) / 3)
     <= 1 # 8796093022208)%Q.
Proof.
  intros Hr Hg Hb. unfold centroid_brightness, py_sum3, fdiv, fadd.
  destruct (round64_near_bound (0 + r) 8 0 255) as [H1 E1];
    [lia|reflexivity|reflexivity|Lqa.lra|].
  set (s1 := round64 (0 + r)) in *.
  change (2 ^ (8 - 54))%Q with (1 # 70368744177664)%Q in *.
  destruct (round64_near_bound (s1 + g) 9 (0 - (1 # 70368744177664))
              (255 + (1 # 70368744177664) + 255)) as [H2 E2];
    [lia|reflexivity|reflexivity|Lqa.lra|].
  set (s2 := round64 (s1 + g)) in *.
  change (2 ^ (9 - 54))%Q with (1 # 35184372088832)%Q in *.
  destruct (round64_near_bound (s2 + b) 10 (0 - 1) 766) as [H3 E3];
    [lia|reflexivity|reflexivity|Lqa.lra|].
  set (s3 := round64 (s2 + b)) in *.
  change (2 ^ (10 - 54))%Q with (1 # 17592186044416)%Q in *.
  destruct (round64_near_bound (s3 / 3) 9 (0 - 1) 256) as [H4 E4];
    [lia|reflexivity|reflexivity| |].
  { split.
    - apply Qle_shift_div_l; [reflexivity|]. Lqa.lra.
    - apply Qle_shift_div_r; [reflexivity|]. Lqa.lra. }
  set (m := round64 (s3 / 3)) in *.
  change (2 ^ (9 - 54))%Q with (1 # 35184372088832)%Q in *.
  apply Qabs_Qle_condition.
  assert (s3 / 3 * 3 == s3)%Q as Hd by (field).
  set (t := (s3 / 3)%Q) in *.
  assert ((r + g + b) / 3 * 3 == r + g + b)%Q as Hd' by (field).
  set (u := ((r + g + b) / 3)%Q) in *.
  split; Lqa.lra.
Qed.

Section PySortedFacts.
Context {A : Type} (le : A → A → bool).

Lemma insert_stable_perm x l : insert_stable le x l ≡ₚ x :: l.
Proof.
  induction l as [|y l IH]; simpl; [done|].
  destruct (le x y); [done|].
  rewrite IH. apply Permutation_swap.
Qed.

Lemma py_sorted_perm l : py_sorted le l ≡ₚ l.
Proof.
  induction l as [|x l IH]; simpl; [done|].
  rewrite insert_stable_perm. by f_equiv.
Qed.

Hypothesis le_total : ∀ x y, le x y = false → le y x = true.
Hypothesis le_trans : ∀ x y z, le x y = true → le y z = true → le x z = true.

Lemma insert_stable_sorted x l :
  StronglySorted (λ a b, le a b = true) l →
  StronglySorted (λ a b, le a b = true) (insert_stable le x l).
Proof.
  induction 1 as [|y l Hs IH Hy]; simpl.
  - repeat constructor.
  - destruct (le x y) eqn:Hxy.
    + constructor; [by constructor|].
      constructor; [done|].
      eapply Forall_impl; [exact Hy|]. intros z Hz. by eapply le_trans.
    + constructor; [done|].
      rewrite insert_stable_perm. constructor; [|done].
      by apply le_total.
Qed.

Lemma py_sorted_sorted l :
  StronglySorted (λ a b, le a b = true) (py_sorted le l).
Proof.
  induction l as [|x l IH]; simpl; [constructor|].
  by apply insert_stable_sorted.
Qed.
End PySortedFacts.

Lemma StronglySorted_weaken {A} (R R' : A → A → Prop) l :
  (∀ x y, R x y → R' x y) → StronglySorted R l → StronglySorted R' l.
Proof.
  intros HR. induction 1 as [|x l Hs IH Hx]; constructor; [done|].
  eapply Forall_impl; [exact Hx|]. auto.
Qed.

Lemma counter_add_keys k c k' :
  k' ∈ (counter_add k c).*1 ↔ k' = k ∨ k' ∈ c.*1.
Proof.
  induction c as [|[k0 n] c IH]; simpl.
  - rewrite elem_of_cons, elem_of_nil. tauto.
  - case_decide; subst; simpl; rewrite !elem_of_cons, ?IH; tauto.
Qed.

Lemma counter_add_NoDup k c : NoDup c.*1 → NoDup (counter_add k c).*1.
Proof.
  induction c as [|[k0 n] c IH]; simpl; intros Hnd.
  - apply NoDup_singleton.
  - apply NoDup_cons in Hnd as [Hk0 Hnd].
    case_decide; simpl; apply NoDup_cons; split; auto.
    rewrite counter_add_keys. intros [->|Hin]; done.
Qed.

Lemma Counter_from_keys labels c k :
  k ∈ (foldl (λ c k, counter_add k c) c labels).*1 ↔ k ∈ c.*1 ∨ k ∈ labels.
Proof.
  revert c. induction labels as [|l labels IH]; intros c; simpl.
  - rewrite elem_of_nil. tauto.
  - rewrite IH, counter_add_keys, elem_of_cons. tauto.
Qed.

Lemma Counter_from_NoDup labels c :
  NoDup c.*1 → NoDup (foldl (λ c k, counter_add k c) c labels).*1.
Proof.
  revert c. induction labels as [|l labels IH]; intros c Hc; simpl; [done|].
  by apply IH, counter_add_NoDup.
Qed.

Lemma Counter_keys labels k : k ∈ (Counter labels).*1 ↔ k ∈ labels.
Proof.
  unfold Counter. rewrite Counter_from_keys. simpl. rewrite elem_of_nil. tauto.
Qed.

Lemma Counter_NoDup labels : NoDup (Counter labels).*1.
Proof. apply Counter_from_NoDup. constructor. Qed.

Lemma sorted_clusters_perm c : sorted_clusters c ≡ₚ c.
Proof. apply py_sorted_perm. Qed.

Lemma brightness_sorted_perm cm : brightness_sorted cm ≡ₚ cm.
Proof. apply py_sorted_perm. Qed.

Lemma brightness_sorted_sorted cm :
  StronglySorted (λ x y, (cd_brightness x.2 <= cd_brightness y.2)%Q)
    (brightness_sorted cm).
Proof.
  eapply StronglySorted_weaken; [|apply py_sorted_sorted].
  - intros x y H. simpl in H. by apply Qle_bool_iff.
  - intros x y H. apply Qle_bool_iff.
    destruct (Qlt_le_dec (cd_brightness x.2) (cd_brightness y.2)) as [Hlt|Hle].
    + exfalso. apply Qlt_le_weak, Qle_bool_iff in Hlt. simpl in H. congruence.
    + done.
  - intros x y z Hxy Hyz. apply Qle_bool_iff.
    apply Qle_bool_iff in Hxy, Hyz. by eapply Qle_trans.
Qed.

(** * The calibrator *)

(** [color_mapping] succeeds when every cluster id indexes a centroid, and
    then holds, in the same order, the data of every cluster. *)
Lemma color_mapping_Some cluster_centers npixels clusters :
  Forall (λ x, (x.1 < length cluster_centers)%nat) clusters →
  ∃ cm, color_mapping cluster_centers npixels clusters = Some cm
        ∧ cm.*1 = clusters.*1
        ∧ ∀ id d, (id, d) ∈ cm →
            ∃ center count, cluster_centers !! id = Some center
                            ∧ d = cluster_entry npixels center count.
Proof.
  unfold color_mapping. induction 1 as [|[id n] clusters Hid _ IH].
  - exists []. split; [done|]. split; [done|]. intros ?? H. by apply elem_of_nil in H.
  - destruct IH as (cm & Hcm & Hkeys & Hdata).
    simpl in Hid. apply lookup_lt_is_Some_2 in Hid as [center Hcenter].
    exists ((id, cluster_entry npixels center n) :: cm).
    split; [|split].
    + apply mapM_Some_2. constructor; [|by apply mapM_Some_1].
      simpl. by rewrite Hcenter.
    + rewrite !fmap_cons. by f_equal.
    + intros id' d [Heq|Hin]%elem_of_cons; [|by apply Hdata].
      injection Heq as -> ->. eauto.
Qed.

Lemma bind_categories_other clusters i fm id :
  id ∉ clusters.*1 → bind_categories i clusters fm !! id = fm !! id.
Proof.
  revert i fm. induction clusters as [|[id' d] clusters IH]; intros i fm Hid; [done|].
  simpl in *. apply not_elem_of_cons in Hid as [Hne Hid].
  rewrite IH by done.
  destruct (cinzano_categories !! i) as [[[? ?] ?]|]; [|done].
  by rewrite lookup_insert_ne.
Qed.

(** The cluster at position [k] of the loop started at [i] is bound to row
    [i + k] of the table, and left as it was beyond the table. *)
Lemma bind_categories_lookup clusters i fm k id d :
  NoDup clusters.*1 →
  clusters !! k = Some (id, d) →
  bind_categories i clusters fm !! id =
    match cinzano_categories !! (i + k)%nat with
    | Some row => Some (bound_entry d row)
    | None => fm !! id
    end.
Proof.
  revert i fm k. induction clusters as [|[id' d'] clusters IH]; intros i fm k Hnd Hk.
  - by rewrite lookup_nil in Hk.
  - simpl in Hnd. apply NoDup_cons in Hnd as [Hfresh Hnd].
    destruct k as [|k]; simpl in *.
    + injection Hk as -> ->. rewrite bind_categories_other by done.
      rewrite Nat.add_0_r.
      destruct (cinzano_categories !! i) as [[[? ?] ?]|]; [|done].
      by rewrite lookup_insert_eq.
    + rewrite (IH (S i) _ k) by done.
      replace (i + S k)%nat with (S i + k)%nat by lia.
      destruct (cinzano_categories !! (S i + k)%nat); [done|].
      assert (id ≠ id') as Hne.
      { intros ->. apply Hfresh. apply list_elem_of_fmap.
        exists (id', d). split; [done|]. by eapply list_elem_of_lookup_2. }
      destruct (cinzano_categories !! i) as [[[? ?] ?]|]; [|done].
      by rewrite lookup_insert_ne.
Qed.

(** What the calibrator computes, for any number of clusters. *)
Lemma analyze_atlas_with_kmeans_spec cluster_centers cluster_labels :
  Forall (λ l, (l < length cluster_centers)%nat) cluster_labels →
  ∃ cm final_mapping,
    color_mapping cluster_centers (length cluster_labels)
      (sorted_clusters (Counter cluster_labels)) = Some cm
    ∧ analyze_atlas_with_kmeans cluster_centers cluster_labels = Some final_mapping
    ∧ NoDup cm.*1
    ∧ (∀ id, id ∈ cm.*1 ↔ id ∈ cluster_labels)
    ∧ (∀ id d, (id, d) ∈ cm →
         ∃ center count, cluster_centers !! id = Some center
                         ∧ d = cluster_entry (length cluster_labels) center count)
    ∧ (∀ i id d, brightness_sorted cm !! i = Some (id, d) →
         final_mapping !! id = bound_entry d <$> cinzano_categories !! i)
    ∧ (∀ id, id ∉ cm.*1 → final_mapping !! id = None).
Proof.
  intros Hvalid.
  destruct (color_mapping_Some cluster_centers (length cluster_labels)
              (sorted_clusters (Counter cluster_labels))) as (cm & Hcm & Hkeys & Hdata).
  { apply Forall_forall. intros [id n] Hin. simpl.
    rewrite sorted_clusters_perm in Hin.
    assert (id ∈ (Counter cluster_labels).*1) as Hid.
    { apply list_elem_of_fmap. by exists (id, n). }
    rewrite Counter_keys in Hid. rewrite Forall_forall in Hvalid. by apply Hvalid. }
  assert (NoDup cm.*1) as Hnd.
  { rewrite Hkeys, sorted_clusters_perm. apply Counter_NoDup. }
  exists cm, (bind_categories 0 (brightness_sorted cm) ∅).
  split; [done|]. split.
  { unfold analyze_atlas_with_kmeans. by rewrite Hcm. }
  split; [done|]. split.
  { intros id. rewrite Hkeys, sorted_clusters_perm. apply Counter_keys. }
  split; [done|]. split.
  - intros i id d Hi.
    rewrite (bind_categories_lookup _ 0 ∅ i id d); [|by rewrite brightness_sorted_perm|done].
    simpl. destruct (cinzano_categories !! i); [done|]. by rewrite lookup_empty.
  - intros id Hid. rewrite bind_categories_other; [by rewrite lookup_empty|].
    by rewrite brightness_sorted_perm.
Qed.

Lemma NoDup_below_length (ids : list nat) n :
  NoDup ids → (∀ id, id ∈ ids → (id < n)%nat) → (length ids ≤ n)%nat.
Proof.
  intros Hnd Hlt. rewrite <- (length_seq n 0).
  apply submseteq_length, NoDup_submseteq; [done|].
  intros id Hid. apply elem_of_seq. specialize (Hlt id Hid). lia.
Qed.

Lemma table_length : length cinzano_categories = 16%nat.
Proof. reflexivity. Qed.

(** ** The calibration table *)

(** C1 (amended).  For two ranks [i < j] of the calibration table, the
    intensity bound to rank [i] is at most the intensity bound to rank [j]
    whenever [j] is one of the 15 data categories (ranks 0 to 14); the last
    row, rank 15, is the border category and carries intensity 0. *)
Theorem table_intensity_monotone_below_border (i j : nat) (a b : Z) :
  (i < j)%nat →
  table_intensities !! i = Some a →
  table_intensities !! j = Some b →
  ((j < 15)%nat → a <= b) ∧ (j = 15%nat → b = 0).
Proof.
  intros Hij Ha Hb. unfold table_intensities, cinzano_categories in *.
  do 16 (destruct j as [|j];
         [do 16 (destruct i as [|i]; [simpl in *; simplify_eq; lia|]);
          exfalso; lia|]).
  simpl in Hb. by rewrite lookup_nil in Hb.
Qed.

Lemma table_intensity_monotone_below_border_witness :
  ((14 < 15)%nat → 24 <= 255) ∧ (14%nat = 15%nat → 255 = 0).
Proof.
  apply (table_intensity_monotone_below_border 3 14 24 255);
    [lia|reflexivity|reflexivity].
Defined.

(** C1, as stated, fails between the last data category and the border
    row: rank 14 carries 255 and rank 15 carries 0. *)
Lemma table_intensity_drops_at_border :
  ¬ (∀ (i j : nat) (a b : Z),
       (i < j)%nat →
       table_intensities !! i = Some a →
       table_intensities !! j = Some b →
       a <= b).
Proof.
  intros H. specialize (H 14%nat 15%nat 255 0).
  assert (255 <= 0) as Habs by (apply H; [lia|reflexivity|reflexivity]).
  lia.
Qed.

(** ** Binding clusters to categories *)

(** C2 (amended).  Whatever the number of clusters that label a pixel, the
    calibrator does not fail when the labels index the centroids: it returns
    a mapping in which the cluster at brightness rank [i] is bound to row [i]
    of the table while [i] is below the table length, and is left unbound
    beyond it. *)
Theorem calibrator_truncates_to_table (cluster_centers : list centroid)
    (cluster_labels : list nat) :
  Forall (λ l, (l < length cluster_centers)%nat) cluster_labels →
  ∃ cm final_mapping,
    color_mapping cluster_centers (length cluster_labels)
      (sorted_clusters (Counter cluster_labels)) = Some cm
    ∧ analyze_atlas_with_kmeans cluster_centers cluster_labels = Some final_mapping
    ∧ ∀ i id d, brightness_sorted cm !! i = Some (id, d) →
        ((i < length cinzano_categories)%nat →
           ∃ row, cinzano_categories !! i = Some row
                  ∧ final_mapping !! id = Some (bound_entry d row))
        ∧ ((length cinzano_categories ≤ i)%nat → final_mapping !! id = None).
Proof.
  intros Hvalid.
  destruct (analyze_atlas_with_kmeans_spec _ _ Hvalid)
    as (cm & fm & Hcm & Hfm & _ & _ & _ & Hrank & _).
  exists cm, fm. split; [done|]. split; [done|].
  intros i id d Hi. rewrite (Hrank _ _ _ Hi). split.
  - intros Hlt. apply lookup_lt_is_Some_2 in Hlt as [row Hrow].
    exists row. by rewrite Hrow.
  - intros Hge. by rewrite (lookup_ge_None_2 _ _ Hge).
Qed.

Lemma calibrator_truncates_to_table_witness :
  ∃ cm final_mapping,
    color_mapping sixteen_centers (length sparse_labels)
      (sorted_clusters (Counter sparse_labels)) = Some cm
    ∧ analyze_atlas_with_kmeans sixteen_centers sparse_labels
      = Some final_mapping
    ∧ ∀ i id d, brightness_sorted cm !! i = Some (id, d) →
        ((i < length cinzano_categories)%nat →
           ∃ row, cinzano_categories !! i = Some row
                  ∧ final_mapping !! id = Some (bound_entry d row))
        ∧ ((length cinzano_categories ≤ i)%nat → final_mapping !! id = None).
Proof.
  apply (calibrator_truncates_to_table sixteen_centers sparse_labels).
  repeat constructor.
Defined.

(** C2, as stated, fails.  The model is fitted with sixteen centroids, as
    the script fixes, but only two of them label a sampled pixel, as happens
    on an image of two colours: two clusters meet the table of sixteen rows,
    and the calibrator returns a mapping of two entries, binding the darker
    cluster to the first row and the white one to the second. *)
Lemma calibrator_accepts_two_clusters :
  length sixteen_centers = 16%nat
  ∧ length (Counter sparse_labels) = 2%nat
  ∧ length (Counter sparse_labels) ≠ length cinzano_categories
  ∧ ∃ final_mapping,
      analyze_atlas_with_kmeans sixteen_centers sparse_labels
      = Some final_mapping
      ∧ final_mapping !! 0%nat =
          Some {| rgb := (0, 0, 0); category := "Black 1"; intensity := 0;
                  ratio_range := "<0.01" |}
      ∧ final_mapping !! 15%nat =
          Some {| rgb := (255, 255, 255); category := "Black 2";
                  intensity := 8; ratio_range := "0.01-0.06" |}
      ∧ ∀ id, (0 < id < 15)%nat → final_mapping !! id = None.
Proof.
  split; [reflexivity|]. split; [reflexivity|]. split; [simpl; lia|].
  eexists. split; [vm_compute; reflexivity|].
  split; [reflexivity|]. split; [reflexivity|].
  intros id Hid.
  do 15 (destruct id as [|id]; [first [lia | reflexivity]|]). lia.
Qed.

(** C3.  With at most as many clusters as the table has rows (the script
    fits 16), the calibrator succeeds; the brightness of each cluster is the
    mean of the three channels of its centroid as [float64] arithmetic
    computes it, [sum(center) / 3], which for channels in the 8-bit range is
    within [2^-43] of the exact mean; [brightness_sorted] holds the same
    clusters in ascending order of that brightness; the cluster at sorted
    rank [i] is bound to row [i] of the table; and every cluster id that
    labels a pixel is bound to the name and intensity of some row, its
    border flag being set exactly for the last row. *)
Theorem calibrator_binds_rank_to_rank (cluster_centers : list centroid)
    (cluster_labels : list nat) :
  (length cluster_centers ≤ length cinzano_categories)%nat →
  Forall (λ l, (l < length cluster_centers)%nat) cluster_labels →
  ∃ cm final_mapping,
    color_mapping cluster_centers (length cluster_labels)
      (sorted_clusters (Counter cluster_labels)) = Some cm
    ∧ analyze_atlas_with_kmeans cluster_centers cluster_labels = Some final_mapping
    ∧ (∀ id d, (id, d) ∈ cm →
         ∃ r g b, cluster_centers !! id = Some (r, g, b)
                  ∧ cd_brightness d = fdiv (fadd (fadd (fadd 0 r) g) b) 3
                  ∧ ((0 <= r <= 255)%Q → (0 <= g <= 255)%Q →
                     (0 <= b <= 255)%Q →
                     (Qabs (cd_brightness d - (r + g + b) / 3)
                        <= 1 # 8796093022208)%Q))
    ∧ brightness_sorted cm ≡ₚ cm
    ∧ StronglySorted (λ x y, (cd_brightness x.2 <= cd_brightness y.2)%Q)
        (brightness_sorted cm)
    ∧ (∀ i id d, brightness_sorted cm !! i = Some (id, d) →
         ∃ row, cinzano_categories !! i = Some row
                ∧ final_mapping !! id = Some (bound_entry d row))
    ∧ (∀ id, id ∈ cluster_labels →
         ∃ entry i row,
           final_mapping !! id = Some entry
           ∧ cinzano_categories !! i = Some row
           ∧ category entry = row.1.1
           ∧ intensity entry = row.2
           ∧ (is_border entry = true ↔ i = 15%nat)).
Proof.
  intros HK Hvalid.
  destruct (analyze_atlas_with_kmeans_spec _ _ Hvalid)
    as (cm & fm & Hcm & Hfm & Hnd & Hkeys & Hdata & Hrank & _).
  assert (length cm ≤ length cinzano_categories)%nat as Hlen.
  { rewrite <- (length_fmap fst cm). etrans; [|exact HK].
    apply NoDup_below_length; [done|].
    intros id Hid. apply Hkeys in Hid.
    rewrite Forall_forall in Hvalid. by apply Hvalid. }
  assert (∀ i id d, brightness_sorted cm !! i = Some (id, d) →
            ∃ row, cinzano_categories !! i = Some row
                   ∧ fm !! id = Some (bound_entry d row)) as Hbound.
  { intros i id d Hi. rewrite (Hrank _ _ _ Hi).
    assert (i < length cinzano_categories)%nat as Hlt.
    { apply lookup_lt_Some in Hi. rewrite brightness_sorted_perm in Hi. lia. }
    apply lookup_lt_is_Some_2 in Hlt as [row Hrow].
    exists row. by rewrite Hrow. }
  exists cm, fm. repeat split; try done.
  - intros id d Hin. destruct (Hdata _ _ Hin) as ([[r g] b] & n & Hc & ->).
    exists r, g, b. split; [done|]. split; [done|].
    intros Hr Hg Hb. exact (centroid_brightness_near r g b Hr Hg Hb).
  - apply brightness_sorted_perm.
  - apply brightness_sorted_sorted.
  - intros id Hid. apply Hkeys in Hid.
    apply list_elem_of_fmap in Hid as ([id' d] & -> & Hin).
    rewrite <- brightness_sorted_perm in Hin.
    apply list_elem_of_lookup in Hin as [i Hi].
    destruct (Hbound _ _ _ Hi) as (row & Hrow & Hfm').
    exists (bound_entry d row), i, row. repeat split; try done.
    + unfold is_border. rewrite bool_decide_eq_true. simpl. intros Hcat.
      unfold cinzano_categories in Hrow.
      do 16 (destruct i as [|i]; [simpl in Hrow; simplify_eq; try done|]).
      simpl in Hrow. discriminate.
    + intros ->. simpl in Hrow. by simplify_eq.
Qed.

Lemma calibrator_binds_rank_to_rank_witness :
  ∃ cm final_mapping,
    color_mapping sixteen_centers (length sixteen_labels)
      (sorted_clusters (Counter sixteen_labels)) = Some cm
    ∧ analyze_atlas_with_kmeans sixteen_centers sixteen_labels
      = Some final_mapping
    ∧ (∀ id d, (id, d) ∈ cm →
         ∃ r g b, sixteen_centers !! id = Some (r, g, b)
                  ∧ cd_brightness d = fdiv (fadd (fadd (fadd 0 r) g) b) 3
                  ∧ ((0 <= r <= 255)%Q → (0 <= g <= 255)%Q →
                     (0 <= b <= 255)%Q →
                     (Qabs (cd_brightness d - (r + g + b) / 3)
                        <= 1 # 8796093022208)%Q))
    ∧ brightness_sorted cm ≡ₚ cm
    ∧ StronglySorted (λ x y, (cd_brightness x.2 <= cd_brightness y.2)%Q)
        (brightness_sorted cm)
    ∧ (∀ i id d, brightness_sorted cm !! i = Some (id, d) →
         ∃ row, cinzano_categories !! i = Some row
                ∧ final_mapping !! id = Some (bound_entry d row))
    ∧ (∀ id, id ∈ sixteen_labels →
         ∃ entry i row,
           final_mapping !! id = Some entry
           ∧ cinzano_categories !! i = Some row
           ∧ category entry = row.1.1
           ∧ intensity entry = row.2
           ∧ (is_border entry = true ↔ i = 15%nat)).
Proof.
  apply (calibrator_binds_rank_to_rank sixteen_centers sixteen_labels).
  - simpl. lia.
  - apply (bool_decide_unpack _). reflexivity.
Defined.

(** The order is that of the [float64] values.  The two centroids of
    [near_tie_centers] have the same channels in opposite orders, hence the
    same exact mean; the script computes 97.93266660955341 for the first and
    97.9326666095534 for the second, and binds the second to the darker
    row. *)
Lemma near_tie_bound_by_float_brightness :
  (near_tie_a.1.1 + near_tie_a.1.2 + near_tie_a.2
   == near_tie_b.1.1 + near_tie_b.1.2 + near_tie_b.2)%Q
  ∧ centroid_brightness near_tie_a = (6891398763284121 # 70368744177664)%Q
  ∧ centroid_brightness near_tie_b = (861424845410515 # 8796093022208)%Q
  ∧ (centroid_brightness near_tie_b < centroid_brightness near_tie_a)%Q
  ∧ ∃ final_mapping,
      analyze_atlas_with_kmeans near_tie_centers [0; 1]%nat = Some final_mapping
      ∧ category <$> final_mapping !! 1%nat = Some "Black 1"
      ∧ category <$> final_mapping !! 0%nat = Some "Black 2".
Proof.
  split; [reflexivity|]. split; [by vm_compute|]. split; [by vm_compute|].
  split; [by vm_compute|].
  eexists. split; [vm_compute; reflexivity|]. split; reflexivity.
Qed.

(** * The classified remapper *)

(** Every entry of the loop's result was there before or comes from a row
    of the table. *)
Lemma bind_categories_entries clusters i fm id entry :
  bind_categories i clusters fm !! id = Some entry →
  fm !! id = Some entry
  ∨ ∃ k d row, clusters !! k = Some (id, d)
               ∧ cinzano_categories !! (i + k)%nat = Some row
               ∧ entry = bound_entry d row.
Proof.
  revert i fm. induction clusters as [|[id' d'] clusters IH]; intros i fm H.
  - by left.
  - simpl in H. apply IH in H as [H|(k & d & row & Hk & Hrow & ->)].
    + destruct (cinzano_categories !! i) as [[[name ratio] v]|] eqn:Hi; [|by left].
      destruct (decide (id' = id)) as [->|Hne].
      * rewrite lookup_insert_eq in H. injection H as <-.
        right. exists 0%nat, d', (name, ratio, v).
        by rewrite Nat.add_0_r.
      * rewrite lookup_insert_ne in H by done. by left.
    + right. exists (S k), d, row.
      by replace (i + S k)%nat with (S i + k)%nat by lia.
Qed.

Lemma table_row_level i row :
  cinzano_categories !! i = Some row → row.2 ∈ remapped_levels.
Proof.
  unfold cinzano_categories, remapped_levels. intros Hrow.
  do 16 (destruct i as [|i];
         [simpl in Hrow; simplify_eq; simpl; set_solver|]).
  simpl in Hrow. discriminate.
Qed.

Lemma remapped_levels_range v : v ∈ remapped_levels → 0 <= v <= 255.
Proof.
  unfold remapped_levels. rewrite !elem_of_cons, elem_of_nil. lia.
Qed.

(** The intensities of a mapping made by the calibrator are table levels. *)
Lemma analyze_atlas_with_kmeans_levels cluster_centers cluster_labels fm id entry :
  analyze_atlas_with_kmeans cluster_centers cluster_labels = Some fm →
  fm !! id = Some entry → intensity entry ∈ remapped_levels.
Proof.
  unfold analyze_atlas_with_kmeans. intros Hfm Hid.
  destruct (color_mapping _ _ _) as [cm|]; [|done].
  simpl in Hfm. injection Hfm as <-.
  apply bind_categories_entries in Hid as [Hid|(k & d & row & _ & Hrow & ->)].
  - by rewrite lookup_empty in Hid.
  - simpl. by eapply table_row_level.
Qed.

Lemma analyze_atlas_with_kmeans_fits cluster_centers cluster_labels fm :
  analyze_atlas_with_kmeans cluster_centers cluster_labels = Some fm →
  mapping_fits fm.
Proof.
  intros Hfm id entry Hid.
  by eapply remapped_levels_range, analyze_atlas_with_kmeans_levels.
Qed.

Lemma pixel_intensity_range color_mapping kmeans_model p :
  mapping_fits color_mapping →
  0 <= pixel_intensity color_mapping kmeans_model p <= 255.
Proof.
  intros Hfits. unfold pixel_intensity.
  destruct (color_mapping !! _) as [entry|] eqn:He; [|lia].
  case_decide; [lia|]. by eapply Hfits.
Qed.

Lemma store_uint8_Some v : 0 <= v <= 255 → store_uint8 v = Some v.
Proof. intros H. unfold store_uint8. by rewrite decide_True. Qed.

Lemma store_uint8_inv v w : store_uint8 v = Some w → w = v ∧ 0 <= v <= 255.
Proof. unfold store_uint8. case_decide; [|done]. by intros [= ->]. Qed.

(** The remapper completes on a mapping that fits, and then holds, cell by
    cell, the intensity computed for the pixel. *)
Lemma lightmap_array_Some color_mapping kmeans_model img_array :
  mapping_fits color_mapping →
  lightmap_array color_mapping kmeans_model img_array =
    Some (map (map (pixel_intensity color_mapping kmeans_model)) img_array).
Proof.
  intros Hfits. unfold lightmap_array.
  apply mapM_Some_2, Forall2_fmap_r, Forall_Forall2_diag, Forall_forall.
  intros row _.
  apply mapM_Some_2, Forall2_fmap_r, Forall_Forall2_diag, Forall_forall.
  intros p _. by apply store_uint8_Some, pixel_intensity_range.
Qed.

Lemma lightmap_array_cells color_mapping kmeans_model img_array lm r v :
  lightmap_array color_mapping kmeans_model img_array = Some lm →
  r ∈ lm → v ∈ r →
  0 <= v <= 255 ∧ ∃ p, v = pixel_intensity color_mapping kmeans_model p.
Proof.
  unfold lightmap_array. intros Hlm Hr Hv.
  apply mapM_Some_1 in Hlm.
  apply list_elem_of_lookup in Hr as [y Hy].
  destruct (Forall2_lookup_r _ _ _ _ _ Hlm Hy) as (row & _ & Hrow).
  apply mapM_Some_1 in Hrow.
  apply list_elem_of_lookup in Hv as [x Hx].
  destruct (Forall2_lookup_r _ _ _ _ _ Hrow Hx) as (p & _ & Hp).
  apply store_uint8_inv in Hp as [-> Hp]. eauto.
Qed.

(** C4.  On a mapping that fits the lightmap, the remapper completes, and a
    pixel whose nearest cluster is bound to the border category gets
    intensity 0, whatever its colour. *)
Theorem border_pixel_remapped_to_zero (color_mapping : gmap nat mapping_entry)
    (kmeans_model : list centroid) (img_array : list (list pixel))
    (y x : nat) (row : list pixel) (p : pixel) (entry : mapping_entry) :
  mapping_fits color_mapping →
  img_array !! y = Some row →
  row !! x = Some p →
  color_mapping !! find_closest_cluster p kmeans_model = Some entry →
  is_border entry = true →
  ∃ lm r, lightmap_array color_mapping kmeans_model img_array = Some lm
          ∧ lm !! y = Some r ∧ r !! x = Some 0.
Proof.
  intros Hfits Hy Hx Hentry Hborder.
  eexists _, _. split; [by apply lightmap_array_Some|].
  rewrite list_lookup_fmap, Hy. split; [done|].
  rewrite list_lookup_fmap, Hx. simpl. f_equal.
  unfold pixel_intensity. rewrite Hentry.
  unfold is_border in Hborder. apply bool_decide_eq_true in Hborder.
  by rewrite decide_True.
Qed.

Lemma border_pixel_remapped_to_zero_witness :
  ∃ lm r, lightmap_array sixteen_mapping sixteen_centers
            [[(0, 0, 0); (255, 255, 255)]] = Some lm
          ∧ lm !! 0%nat = Some r ∧ r !! 1%nat = Some 0.
Proof.
  apply (border_pixel_remapped_to_zero sixteen_mapping sixteen_centers
           [[(0, 0, 0); (255, 255, 255)]] 0 1 [(0, 0, 0); (255, 255, 255)]
           (255, 255, 255)
           {| rgb := (255, 255, 255); category := "White 2/Border";
              intensity := 0; ratio_range := "Border" |}).
  - apply (analyze_atlas_with_kmeans_fits sixteen_centers sixteen_labels).
    reflexivity.
  - reflexivity.
  - reflexivity.
  - vm_compute. reflexivity.
  - reflexivity.
Defined.

(** C5.  On a mapping that fits the lightmap, the remapper completes with
    one cell in [0, 255] for every pixel, and the cell of a pixel whose
    nearest cluster has no bound category is 0. *)
Theorem unmapped_cluster_remapped_to_zero (color_mapping : gmap nat mapping_entry)
    (kmeans_model : list centroid) (img_array : list (list pixel)) :
  mapping_fits color_mapping →
  ∃ lm, lightmap_array color_mapping kmeans_model img_array = Some lm
        ∧ ∀ y x row p, img_array !! y = Some row → row !! x = Some p →
            ∃ r v, lm !! y = Some r ∧ r !! x = Some v ∧ 0 <= v <= 255
                   ∧ (color_mapping !! find_closest_cluster p kmeans_model = None
                      → v = 0).
Proof.
  intros Hfits. eexists. split; [by apply lightmap_array_Some|].
  intros y x row p Hy Hx. eexists _, _.
  rewrite list_lookup_fmap, Hy. split; [done|].
  rewrite list_lookup_fmap, Hx. split; [done|].
  split; [by apply pixel_intensity_range|].
  intros Hnone. unfold pixel_intensity. by rewrite Hnone.
Qed.

Lemma unmapped_cluster_remapped_to_zero_witness :
  ∃ lm, lightmap_array sparse_mapping sixteen_centers
          [[(100, 100, 100); (255, 255, 255)]] = Some lm
        ∧ ∀ y x row p,
            [[(100, 100, 100); (255, 255, 255)]] !! y = Some row →
            row !! x = Some p →
            ∃ r v, lm !! y = Some r ∧ r !! x = Some v ∧ 0 <= v <= 255
                   ∧ (sparse_mapping !! find_closest_cluster p sixteen_centers
                      = None
                      → v = 0).
Proof.
  apply (unmapped_cluster_remapped_to_zero sparse_mapping sixteen_centers
           [[(100, 100, 100); (255, 255, 255)]]).
  apply (analyze_atlas_with_kmeans_fits sixteen_centers sparse_labels).
  reflexivity.
Defined.

(** The levels are the intensities of the table, the border row giving 0. *)
Lemma remapped_levels_table v :
  v ∈ remapped_levels ↔
  ∃ i row, cinzano_categories !! i = Some row
           ∧ v = if decide (row.1.1 = "White 2/Border") then 0 else row.2.
Proof.
  split.
  - unfold remapped_levels. intros Hv.
    repeat (apply elem_of_cons in Hv as [->|Hv]);
      [| | | | | | | | | | | | | | |by apply elem_of_nil in Hv].
    + by exists 0%nat, ("Black 1", "<0.01", 0).
    + by exists 1%nat, ("Black 2", "0.01-0.06", 8).
    + by exists 2%nat, ("Dark Gray 1", "0.06-0.11", 16).
    + by exists 3%nat, ("Dark Gray 2", "0.11-0.19", 24).
    + by exists 4%nat, ("Blue 1", "0.19-0.33", 32).
    + by exists 5%nat, ("Blue 2", "0.33-0.58", 48).
    + by exists 6%nat, ("Green 1", "0.58-1.00", 64).
    + by exists 7%nat, ("Green 2", "1.00-1.73", 80).
    + by exists 8%nat, ("Yellow 1", "1.73-3.00", 96).
    + by exists 9%nat, ("Yellow 2", "3.00-5.20", 128).
    + by exists 10%nat, ("Orange 1", "5.20-9.00", 160).
    + by exists 11%nat, ("Orange 2", "9.00-15.59", 192).
    + by exists 12%nat, ("Red 1", "15.59-27.00", 224).
    + by exists 13%nat, ("Red 2", "27.00-46.77", 240).
    + by exists 14%nat, ("White 1", ">46.77", 255).
  - intros (i & row & Hrow & ->). case_decide.
    + unfold remapped_levels. set_solver.
    + by eapply table_row_level.
Qed.

(** C9.  With a mapping made by the calibrator, the remapper completes and
    every cell of its lightmap, before any tone adjustment, is one of the
    levels 0, 8, 16, 24, 32, 48, 64, 80, 96, 128, 160, 192, 224, 240, 255,
    which are the intensities of the table with the border row replaced
    by 0. *)
Theorem remapped_lightmap_takes_table_levels (cluster_centers : list centroid)
    (cluster_labels : list nat) (color_mapping : gmap nat mapping_entry)
    (kmeans_model : list centroid) (img_array : list (list pixel)) :
  analyze_atlas_with_kmeans cluster_centers cluster_labels = Some color_mapping →
  ∃ lm, lightmap_array color_mapping kmeans_model img_array = Some lm
        ∧ (∀ r v, r ∈ lm → v ∈ r →
             v ∈ [0; 8; 16; 24; 32; 48; 64; 80; 96; 128; 160; 192; 224; 240; 255]
             ∧ ∃ i row, cinzano_categories !! i = Some row
                 ∧ v = if decide (row.1.1 = "White 2/Border") then 0 else row.2).
Proof.
  intros Hcm.
  pose proof (analyze_atlas_with_kmeans_fits _ _ _ Hcm) as Hfits.
  eexists. split; [by apply lightmap_array_Some|].
  intros r v Hr Hv.
  enough (v ∈ remapped_levels) as Hlevel.
  { split; [exact Hlevel|]. by apply remapped_levels_table. }
  destruct (lightmap_array_cells color_mapping kmeans_model img_array _ r v
              (lightmap_array_Some _ _ _ Hfits) Hr Hv) as (_ & p & ->).
  unfold pixel_intensity.
  destruct (color_mapping !! _) as [entry|] eqn:He.
  - case_decide; [apply list_elem_of_here|].
    by eapply analyze_atlas_with_kmeans_levels.
  - apply list_elem_of_here.
Qed.

Lemma remapped_lightmap_takes_table_levels_witness :
  ∃ lm, lightmap_array sixteen_mapping sixteen_centers
          [[(0, 0, 0); (120, 130, 140)]; [(255, 255, 255); (250, 0, 0)]] = Some lm
        ∧ (∀ r v, r ∈ lm → v ∈ r →
             v ∈ [0; 8; 16; 24; 32; 48; 64; 80; 96; 128; 160; 192; 224; 240; 255]
             ∧ ∃ i row, cinzano_categories !! i = Some row
                 ∧ v = if decide (row.1.1 = "White 2/Border") then 0 else row.2).
Proof.
  apply (remapped_lightmap_takes_table_levels sixteen_centers sixteen_labels).
  reflexivity.
Defined.

(** * The tone post-processor *)

Lemma py_int_nonneg c : (0 <= c)%Q → py_int c = Qfloor c.
Proof.
  destruct c as [n d]. unfold Qle, py_int. simpl. intros Hn.
  apply Z.quot_div_nonneg; lia.
Qed.

Lemma py_int_nonpos c : (c <= 0)%Q → py_int c = Qceiling c.
Proof.
  destruct c as [n d]. unfold Qle, py_int, Qceiling. simpl. intros Hn.
  rewrite <- (Z.opp_involutive n) at 1. rewrite Z.quot_opp_l by lia.
  f_equal. apply Z.quot_div_nonneg; lia.
Qed.

Lemma py_int_mono c1 c2 : (c1 <= c2)%Q → py_int c1 <= py_int c2.
Proof.
  intros Hle.
  destruct (Qlt_le_dec c1 0) as [H1|H1]; destruct (Qlt_le_dec c2 0) as [H2|H2].
  - rewrite !py_int_nonpos by by apply Qlt_le_weak.
    by apply Qceiling_resp_le.
  - rewrite (py_int_nonpos c1), (py_int_nonneg c2) by (done || by apply Qlt_le_weak).
    etrans; [apply (Qceiling_resp_le c1 0), Qlt_le_weak, H1|].
    etrans; [|apply (Qfloor_resp_le 0 c2), H2]. done.
  - exfalso. apply (Qlt_irrefl 0).
    eapply Qle_lt_trans; [exact H1|]. by eapply Qle_lt_trans.
  - rewrite !py_int_nonneg by done. by apply Qfloor_resp_le.
Qed.

Lemma py_int_between c lo hi :
  (inject_Z lo <= c)%Q → (c <= inject_Z hi)%Q → lo <= py_int c <= hi.
Proof.
  intros Hlo Hhi. split.
  - replace lo with (py_int (inject_Z lo)); [by apply py_int_mono|].
    unfold py_int. simpl. apply Z.quot_1_r.
  - replace hi with (py_int (inject_Z hi)); [by apply py_int_mono|].
    unfold py_int. simpl. apply Z.quot_1_r.
Qed.

Lemma Qle_bool_false x y : Qle_bool x y = false → (y < x)%Q.
Proof.
  intros H. destruct (Qlt_le_dec y x) as [Hlt|Hle]; [done|].
  apply Qle_bool_iff in Hle. congruence.
Qed.

(** The clipping of the extrapolated blend, and its monotonicity. *)
Lemma clipped_range t :
  0 <= (if Qle_bool t 0 then 0 else if Qle_bool 255 t then 255 else py_int t)
    <= 255.
Proof.
  destruct (Qle_bool t 0) eqn:H0; [lia|].
  destruct (Qle_bool 255 t) eqn:H255; [lia|].
  apply Qle_bool_false in H0, H255.
  apply (py_int_between t 0 255); by apply Qlt_le_weak.
Qed.

Lemma clipped_mono t1 t2 :
  (t1 <= t2)%Q →
  (if Qle_bool t1 0 then 0 else if Qle_bool 255 t1 then 255 else py_int t1)
  <= (if Qle_bool t2 0 then 0 else if Qle_bool 255 t2 then 255 else py_int t2).
Proof.
  intros Hle.
  destruct (Qle_bool t1 0) eqn:H10; [apply clipped_range|].
  apply Qle_bool_false in H10.
  assert (Qle_bool t2 0 = false) as ->.
  { destruct (Qle_bool t2 0) eqn:H20; [|done]. apply Qle_bool_iff in H20.
    exfalso. apply (Qlt_irrefl 0).
    eapply Qlt_le_trans; [exact H10|]. by eapply Qle_trans. }
  destruct (Qle_bool 255 t1) eqn:H1.
  - apply Qle_bool_iff in H1.
    assert (Qle_bool 255 t2 = true) as ->; [|done].
    apply Qle_bool_iff. by eapply Qle_trans.
  - apply Qle_bool_false in H1.
    destruct (Qle_bool 255 t2) eqn:H2; [|by apply py_int_mono].
    apply (py_int_between t1 0 255); by apply Qlt_le_weak.
Qed.

(** For a non-negative factor the blend is monotone in the pixel of the
    second image. *)
Lemma blend_value_mono mean a b alpha :
  (0 <= alpha)%Q → a <= b → blend_value mean a alpha <= blend_value mean b alpha.
Proof.
  intros Halpha Hab. unfold blend_value.
  destruct (Qeq_bool alpha 0); [done|].
  destruct (Qeq_bool alpha 1); [done|].
  assert (inject_Z mean + alpha * inject_Z (a - mean)
          <= inject_Z mean + alpha * inject_Z (b - mean))%Q as Htemp.
  { apply Qplus_le_r. rewrite !(Qmult_comm alpha).
    apply Qmult_le_compat_r; [|done]. rewrite <- Zle_Qle. lia. }
  destruct (Qle_bool 0 alpha && Qle_bool alpha 1); [by apply py_int_mono|].
  by apply clipped_mono.
Qed.

(** Outside the interpolation range the blend is clipped to [0, 255]. *)
Lemma blend_value_clipped mean v alpha :
  (1 < alpha)%Q → 0 <= blend_value mean v alpha <= 255.
Proof.
  intros Halpha. unfold blend_value.
  assert (Qeq_bool alpha 0 = false) as ->.
  { destruct (Qeq_bool alpha 0) eqn:H0; [|done]. apply Qeq_bool_eq in H0.
    rewrite H0 in Halpha. by vm_compute in Halpha. }
  assert (Qeq_bool alpha 1 = false) as ->.
  { destruct (Qeq_bool alpha 1) eqn:H1; [|done]. apply Qeq_bool_eq in H1.
    rewrite H1 in Halpha. by apply Qlt_irrefl in Halpha. }
  assert (Qle_bool alpha 1 = false) as ->.
  { destruct (Qle_bool alpha 1) eqn:H1; [|done]. apply Qle_bool_iff in H1.
    exfalso. apply (Qlt_irrefl 1). by eapply Qlt_le_trans. }
  rewrite andb_false_r. apply clipped_range.
Qed.

Lemma stat_mean_Some (image : list (list Z)) :
  concat image ≠ [] → ∃ m, stat_mean image = Some m.
Proof.
  unfold stat_mean. destruct (concat image); [done|]. eauto.
Qed.

Lemma concat_nonempty {A} (image : list (list A)) y x row a :
  image !! y = Some row → row !! x = Some a → concat image ≠ [].
Proof.
  intros Hy Hx Hnil.
  assert (In a (concat image)) as Hin.
  { apply in_concat. exists row.
    split; apply list_elem_of_In; by eapply list_elem_of_lookup_2. }
  rewrite Hnil in Hin. done.
Qed.

Lemma Contrast_enhance_Some (image : list (list Z)) factor :
  concat image ≠ [] →
  ∃ mean, Contrast_enhance image factor =
            Some (map (map (λ v, blend_value mean v factor)) image).
Proof.
  intros Hne. destruct (stat_mean_Some image Hne) as [m Hm].
  unfold Contrast_enhance. rewrite Hm. simpl. eauto.
Qed.

Lemma Contrast_enhance_clipped (image enhanced : list (list Z)) factor row v :
  (1 < factor)%Q →
  Contrast_enhance image factor = Some enhanced →
  row ∈ enhanced → v ∈ row → 0 <= v <= 255.
Proof.
  unfold Contrast_enhance. intros Hf He Hrow Hv.
  destruct (stat_mean image) as [m|]; [|done].
  simpl in He. injection He as <-.
  apply list_elem_of_fmap in Hrow as (row0 & -> & _).
  apply list_elem_of_fmap in Hv as (v0 & -> & _).
  by apply blend_value_clipped.
Qed.

Lemma convert_RGB_in_range (image : list (list Z)) :
  (∀ row v, row ∈ image → v ∈ row → 0 <= v <= 255) →
  grid_in_range (convert_RGB image).
Proof.
  intros Himage row p Hrow Hp. unfold convert_RGB in Hrow.
  apply list_elem_of_fmap in Hrow as (row0 & -> & Hrow0).
  apply list_elem_of_fmap in Hp as (v & -> & Hv).
  simpl. specialize (Himage _ _ Hrow0 Hv). lia.
Qed.

Lemma concat_fmap_nonempty {A B} (f : A → B) (image : list (list A)) :
  concat image ≠ [] → concat (map (map f) image) ≠ [].
Proof.
  intros Hne Hnil. rewrite <- concat_map in Hnil.
  apply Hne. by apply fmap_nil_inv in Hnil.
Qed.

(** C7.  For a non-negative factor (the decoders use 1.3 and 1.2) the
    contrast enhancement completes on an image that has pixels, and it
    preserves rank order: if the cell at one position holds less than the
    cell at another, it still holds at most as much after the enhancement. *)
Theorem contrast_preserves_rank_order (image : list (list Z)) (factor : Q)
    (y1 x1 y2 x2 : nat) (r1 r2 : list Z) (a b : Z) :
  (0 <= factor)%Q →
  image !! y1 = Some r1 → r1 !! x1 = Some a →
  image !! y2 = Some r2 → r2 !! x2 = Some b →
  a < b →
  ∃ enhanced r1' r2' a' b',
    Contrast_enhance image factor = Some enhanced
    ∧ enhanced !! y1 = Some r1' ∧ r1' !! x1 = Some a'
    ∧ enhanced !! y2 = Some r2' ∧ r2' !! x2 = Some b'
    ∧ a' <= b'.
Proof.
  intros Hf Hy1 Hx1 Hy2 Hx2 Hab.
  destruct (Contrast_enhance_Some image factor) as [mean ->].
  { by eapply concat_nonempty. }
  exists (map (map (λ v, blend_value mean v factor)) image),
    (map (λ v, blend_value mean v factor) r1),
    (map (λ v, blend_value mean v factor) r2),
    (blend_value mean a factor), (blend_value mean b factor).
  split; [done|].
  split; [by rewrite list_lookup_fmap, Hy1|].
  split; [by rewrite list_lookup_fmap, Hx1|].
  split; [by rewrite list_lookup_fmap, Hy2|].
  split; [by rewrite list_lookup_fmap, Hx2|].
  apply blend_value_mono; [done|lia].
Qed.

Lemma contrast_preserves_rank_order_witness :
  ∃ enhanced r1' r2' a' b',
    Contrast_enhance [[0; 10]; [255; 100]] (13 # 10) = Some enhanced
    ∧ enhanced !! 0%nat = Some r1' ∧ r1' !! 1%nat = Some a'
    ∧ enhanced !! 1%nat = Some r2' ∧ r2' !! 1%nat = Some b'
    ∧ a' <= b'.
Proof.
  apply (contrast_preserves_rank_order [[0; 10]; [255; 100]] (13 # 10)
           0 1 1 1 [0; 10] [255; 100] 10 100).
  - done.
  - reflexivity.
  - reflexivity.
  - reflexivity.
  - reflexivity.
  - lia.
Defined.

(** * The direct-channel remapper *)

Lemma normalized_range g : (0 <= normalized g <= 1)%Q.
Proof.
  unfold normalized, np_clip. split.
  - apply Q.min_glb; [apply Q.le_max_r|done].
  - apply Q.le_min_r.
Qed.

Lemma search_power_range k x : 0 <= search_power k x <= Z.of_nat k.
Proof.
  induction k as [|k IH]; simpl search_power; [lia|].
  destruct (below_power _ x); lia.
Qed.

Lemma search_power_below k x :
  search_power k x = 0 ∨ below_power (search_power k x) x = true.
Proof.
  induction k as [|k IH]; simpl search_power; [by left|].
  destruct (below_power (Z.of_nat (S k)) x) eqn:Hk; [by right|done].
Qed.

Lemma search_power_above k x m :
  search_power k x < m <= Z.of_nat k → below_power m x = false.
Proof.
  induction k as [|k IH]; simpl search_power; [lia|].
  destruct (below_power (Z.of_nat (S k)) x) eqn:Hk; [lia|].
  intros Hm. destruct (decide (m = Z.of_nat (S k))) as [->|Hne]; [done|].
  apply IH. lia.
Qed.

Lemma lightmap_value_range p : 0 <= lightmap_value p <= 255.
Proof. apply (search_power_range 255). Qed.

(** C8.  Every operation of the two decoders stays in range: the
    direct-channel normalisation lies in [0, 1] and its lightmap value in
    [0, 255]; and on a grid that has pixels (and, for the classified
    decoder, a mapping that fits) both decoders complete with an image all
    of whose channel values lie in [0, 255]. *)
Theorem output_grids_in_range (color_mapping : gmap nat mapping_entry)
    (kmeans_model : list centroid) (img_array : list (list pixel)) :
  mapping_fits color_mapping →
  concat img_array ≠ [] →
  (∀ p, (0 <= normalized (grayscale_value p) <= 1)%Q
        ∧ 0 <= lightmap_value p <= 255)
  ∧ (∃ final_img, process_grayscale_atlas img_array = Some final_img
                  ∧ grid_in_range final_img)
  ∧ (∃ lm final_img,
       lightmap_array color_mapping kmeans_model img_array = Some lm
       ∧ (∀ row v, row ∈ lm → v ∈ row → 0 <= v <= 255)
       ∧ decode_atlas_to_lightmap_kmeans color_mapping kmeans_model img_array
         = Some final_img
       ∧ grid_in_range final_img).
Proof.
  intros Hfits Hne. split; [|split].
  - intros p. split; [apply normalized_range|apply lightmap_value_range].
  - unfold process_grayscale_atlas.
    destruct (Contrast_enhance_Some (map (map lightmap_value) img_array) (12 # 10))
      as [mean Hmean]; [by apply concat_fmap_nonempty|].
    rewrite Hmean. simpl. eexists. split; [done|].
    apply convert_RGB_in_range. intros row v Hrow Hv.
    by eapply (Contrast_enhance_clipped _ _ (12 # 10)).
  - unfold decode_atlas_to_lightmap_kmeans.
    rewrite (lightmap_array_Some _ _ _ Hfits). simpl.
    destruct (Contrast_enhance_Some
                (map (map (pixel_intensity color_mapping kmeans_model)) img_array)
                (13 # 10)) as [mean Hmean]; [by apply concat_fmap_nonempty|].
    rewrite Hmean. simpl. eexists _, _. split; [done|]. split; [|split; [done|]].
    + intros row v Hrow Hv.
      apply list_elem_of_fmap in Hrow as (row0 & -> & _).
      apply list_elem_of_fmap in Hv as (p & -> & _).
      by apply pixel_intensity_range.
    + apply convert_RGB_in_range. intros row v Hrow Hv.
      by eapply (Contrast_enhance_clipped _ _ (13 # 10)).
Qed.

Lemma output_grids_in_range_witness :
  (∀ p, (0 <= normalized (grayscale_value p) <= 1)%Q
        ∧ 0 <= lightmap_value p <= 255)
  ∧ (∃ final_img,
       process_grayscale_atlas [[(0, 0, 0); (20, 20, 20)]; [(37, 37, 37); (255, 255, 255)]]
       = Some final_img
       ∧ grid_in_range final_img)
  ∧ (∃ lm final_img,
       lightmap_array sixteen_mapping sixteen_centers
         [[(0, 0, 0); (20, 20, 20)]; [(37, 37, 37); (255, 255, 255)]] = Some lm
       ∧ (∀ row v, row ∈ lm → v ∈ row → 0 <= v <= 255)
       ∧ decode_atlas_to_lightmap_kmeans sixteen_mapping sixteen_centers
           [[(0, 0, 0); (20, 20, 20)]; [(37, 37, 37); (255, 255, 255)]]
         = Some final_img
       ∧ grid_in_range final_img).
Proof.
  apply (output_grids_in_range sixteen_mapping sixteen_centers
           [[(0, 0, 0); (20, 20, 20)]; [(37, 37, 37); (255, 255, 255)]]).
  - apply (analyze_atlas_with_kmeans_fits sixteen_centers sixteen_labels).
    reflexivity.
  - simpl. discriminate.
Defined.

(** C10.  The direct-channel decoder reads the red channel only: two grids
    with the same red channels, whatever their green and blue channels, give
    the same lightmap values and the same final image. *)
Theorem direct_channel_reads_red_only (img1 img2 : list (list pixel)) :
  map (map (λ p : pixel, p.1.1)) img1 = map (map (λ p : pixel, p.1.1)) img2 →
  map (map lightmap_value) img1 = map (map lightmap_value) img2
  ∧ process_grayscale_atlas img1 = process_grayscale_atlas img2.
Proof.
  intros Hred.
  assert (map (map lightmap_value) img1 = map (map lightmap_value) img2) as Hlm.
  { assert (∀ img : list (list pixel),
              map (map lightmap_value) img =
              map (map (λ r, power_scale_uint8 (normalized (inject_Z r))))
                (map (map (λ p : pixel, p.1.1)) img)) as Hfactor.
    { intros img. rewrite map_map. apply map_ext. intros row.
      rewrite map_map. done. }
    by rewrite !Hfactor, Hred. }
  split; [done|]. unfold process_grayscale_atlas. by rewrite Hlm.
Qed.

Lemma direct_channel_reads_red_only_witness :
  map (map lightmap_value) [[(5, 0, 0); (30, 200, 7)]]
  = map (map lightmap_value) [[(5, 255, 9); (30, 1, 2)]]
  ∧ process_grayscale_atlas [[(5, 0, 0); (30, 200, 7)]]
    = process_grayscale_atlas [[(5, 255, 9); (30, 1, 2)]].
Proof.
  apply (direct_channel_reads_red_only [[(5, 0, 0); (30, 200, 7)]]
           [[(5, 255, 9); (30, 1, 2)]]).
  reflexivity.
Defined.

(** ** The direct-channel value against the real formula *)

Lemma Q2R_inject_Z z : Q2R (inject_Z z) = IZR z.
Proof. unfold Q2R. simpl. field. Qed.

Lemma Q2R_Qmin a b : Q2R (Qmin a b) = Rmin (Q2R a) (Q2R b).
Proof.
  destruct (Q.min_spec a b) as [[Hlt Heq]|[Hle Heq]];
    rewrite (Qeq_eqR _ _ Heq).
  - apply Qlt_Rlt in Hlt. rewrite Rmin_left; [done|]. by apply Rlt_le.
  - apply Qle_Rle in Hle. by rewrite Rmin_right.
Qed.

Lemma Q2R_Qmax a b : Q2R (Qmax a b) = Rmax (Q2R a) (Q2R b).
Proof.
  destruct (Q.max_spec a b) as [[Hlt Heq]|[Hle Heq]];
    rewrite (Qeq_eqR _ _ Heq).
  - apply Qlt_Rlt in Hlt. rewrite Rmax_right; [done|]. by apply Rlt_le.
  - apply Qle_Rle in Hle. by rewrite Rmax_left.
Qed.

Lemma Q2R_normalized raw :
  Q2R (normalized (inject_Z raw)) = Rmin (Rmax (IZR raw / 37) 0) 1.
Proof.
  unfold normalized, np_clip, max_atlas_value.
  rewrite Q2R_Qmin, Q2R_Qmax, Q2R_div by done.
  rewrite Q2R_inject_Z. f_equal; [f_equal|].
  - f_equal. apply (Q2R_inject_Z 37).
  - apply (Q2R_inject_Z 0).
  - apply (Q2R_inject_Z 1).
Qed.

Lemma Q2R_pow7 x : Q2R (x ^ 7) = (Q2R x ^ 7)%R.
Proof.
  unfold Qpower, Qpower_positive. simpl pow_pos. rewrite !Q2R_mult. ring.
Qed.

Lemma Q2R_pow10 x : Q2R (x ^ 10) = (Q2R x ^ 10)%R.
Proof.
  unfold Qpower, Qpower_positive. simpl pow_pos. rewrite !Q2R_mult. ring.
Qed.

Lemma below_power_real n x :
  below_power n x = true ↔ ((IZR n / 255) ^ 10 <= Q2R x ^ 7)%R.
Proof.
  unfold below_power. rewrite Qle_bool_iff.
  rewrite <- Q2R_pow7.
  replace (IZR n / 255)%R with (Q2R (inject_Z n / 255)).
  2:{ rewrite Q2R_div by done. rewrite Q2R_inject_Z. f_equal.
      apply (Q2R_inject_Z 255). }
  rewrite <- Q2R_pow10. split; [apply Qle_Rle|apply Rle_Qle].
Qed.

Lemma pow_lt_strict (a b : R) (k : nat) :
  (0 <= a < b)%R → (0 < k)%nat → (a ^ k < b ^ k)%R.
Proof.
  intros [Ha Hab] Hk. destruct k as [|k]; [lia|]. clear Hk.
  induction k as [|k IH].
  - simpl. lra.
  - change (a * a ^ S k < b * b ^ S k)%R.
    apply Rmult_le_0_lt_compat; [done| |done|exact IH].
    by apply pow_le.
Qed.

Lemma pow_le_reg (a b : R) (k : nat) :
  (0 <= b)%R → (0 < k)%nat → (a ^ k <= b ^ k)%R → (a <= b)%R.
Proof.
  intros Hb Hk Hle. apply Rnot_lt_le. intros Hlt.
  apply (Rlt_irrefl (a ^ k)). eapply Rle_lt_trans; [exact Hle|].
  by apply pow_lt_strict.
Qed.

Lemma pow_lt_reg (a b : R) (k : nat) :
  (0 <= b)%R → (a ^ k < b ^ k)%R → (a < b)%R.
Proof.
  intros Hb Hlt. apply Rnot_le_lt. intros Hle.
  apply (Rlt_irrefl (a ^ k)). eapply Rlt_le_trans; [exact Hlt|].
  by apply pow_incr.
Qed.

(** The power 0.7 of a non-negative real is the non-negative real whose
    tenth power is the seventh power of the argument. *)
Lemma spec_power_root x :
  (0 <= x)%R →
  (0 <= spec_power x (7 / 10))%R ∧ (spec_power x (7 / 10) ^ 10 = x ^ 7)%R.
Proof.
  intros Hx. unfold spec_power. destruct (Req_dec_T x 0) as [->|Hne].
  - split; [lra|]. simpl. ring.
  - assert (0 < x)%R as Hpos by lra.
    assert (0 < Rpower x (7 / 10))%R as Hy by apply exp_pos.
    split; [lra|].
    rewrite <- (Rpower_pow 10 (Rpower x (7 / 10))) by done.
    rewrite Rpower_mult.
    replace (7 / 10 * INR 10)%R with (INR 7) by (simpl; field).
    by apply Rpower_pow.
Qed.

(** C6.  The direct-channel value of a pixel lies in [0, 255] and is the
    truncation of the real number obtained from its raw channel value by
    dividing by 37, clamping to [0, 1], raising to the power 0.7 and
    multiplying by 255; and a raw value of 0 gives 0. *)
Theorem direct_channel_is_truncated_power (p : pixel) :
  0 <= lightmap_value p <= 255
  ∧ (IZR (lightmap_value p) <= spec_direct_channel p.1.1
     < IZR (lightmap_value p) + 1)%R
  ∧ (∀ g b : Z, lightmap_value (0, g, b) = 0).
Proof.
  split; [apply lightmap_value_range|]. split; [|by intros g b; vm_compute].
  unfold lightmap_value, grayscale_value, power_scale_uint8, spec_direct_channel.
  set (raw := p.1.1). set (x := normalized (inject_Z raw)).
  rewrite <- (Q2R_normalized raw). fold x.
  destruct (normalized_range (inject_Z raw)) as [Hx0 Hx1]. fold x in Hx0, Hx1.
  apply Qle_Rle in Hx0, Hx1.
  change (Q2R 0) with (Q2R (inject_Z 0)) in Hx0.
  change (Q2R 1) with (Q2R (inject_Z 1)) in Hx1.
  rewrite Q2R_inject_Z in Hx0, Hx1.
  destruct (spec_power_root (Q2R x) Hx0) as [Hy0 Hy].
  set (y := spec_power (Q2R x) (7 / 10)) in *.
  pose proof (search_power_range 255 x) as Hn.
  set (n := search_power 255 x) in *.
  assert (0 <= IZR n)%R as Hn0 by (apply IZR_le; lia).
  split.
  - destruct (search_power_below 255 x) as [H0|Hbelow]; fold n in H0 || fold n in Hbelow.
    + rewrite H0. lra.
    + apply below_power_real in Hbelow. rewrite <- Hy in Hbelow.
      apply pow_le_reg in Hbelow; [|done|lia]. lra.
  - destruct (decide (n = 255)) as [->|Hne].
    + assert (y <= 1)%R; [|lra].
      apply (pow_le_reg y 1 10); [lra|lia|].
      rewrite Hy, pow1. rewrite <- (pow1 7). by apply pow_incr.
    + assert (below_power (n + 1) x = false) as Habove.
      { apply (search_power_above 255). fold n. lia. }
      assert (y ^ 10 < (IZR (n + 1) / 255) ^ 10)%R as Hlt.
      { rewrite Hy. apply Rnot_le_lt. intros Hle.
        apply below_power_real in Hle. congruence. }
      assert (0 <= IZR (n + 1))%R as Hn1 by (apply IZR_le; lia).
      apply pow_lt_reg in Hlt; [|lra].
      rewrite plus_IZR in Hlt. lra.
Qed.


(** * Further properties of the calibrator *)

Lemma counter_get_add k k' c :
  counter_get k' (counter_add k c)
  = (counter_get k' c + if decide (k' = k) then 1 else 0)%nat.
Proof.
  induction c as [|[k0 n] c IH]; simpl.
  - repeat case_decide; lia.
  - destruct (decide (k = k0)) as [->|Hne]; simpl.
    + repeat case_decide; lia.
    + rewrite IH. repeat case_decide; subst; lia || done.
Qed.

Lemma counter_get_foldl k c labels :
  counter_get k (foldl (λ c k, counter_add k c) c labels)
  = (counter_get k c + occurrences k labels)%nat.
Proof.
  revert c. unfold occurrences.
  induction labels as [|l labels IH]; intros c; simpl; [lia|].
  rewrite IH, counter_get_add, filter_cons.
  repeat case_decide; subst; simpl; lia || done.
Qed.

Lemma counter_get_elem k n c :
  NoDup c.*1 → (k, n) ∈ c → counter_get k c = n.
Proof.
  induction c as [|[k0 n0] c IH]; intros Hnd Hin.
  - by apply elem_of_nil in Hin.
  - simpl in Hnd. apply NoDup_cons in Hnd as [Hfresh Hnd].
    apply elem_of_cons in Hin as [Heq|Hin]; simpl.
    + injection Heq as -> ->. by rewrite decide_True.
    + rewrite decide_False; [by apply IH|].
      intros ->. apply Hfresh. apply list_elem_of_fmap. by exists (k0, n).
Qed.

(** The counter holds, for every label present, its number of occurrences. *)
Lemma Counter_counts labels k n :
  (k, n) ∈ Counter labels → n = occurrences k labels.
Proof.
  intros Hin. rewrite <- (counter_get_elem k n (Counter labels));
    [|apply Counter_NoDup|done].
  unfold Counter. by rewrite counter_get_foldl.
Qed.

Lemma occurrences_pos k labels : k ∈ labels → (0 < occurrences k labels)%nat.
Proof.
  unfold occurrences. induction labels as [|l labels IH]; intros Hin.
  - by apply elem_of_nil in Hin.
  - rewrite filter_cons. case_decide; simpl; [lia|].
    apply elem_of_cons in Hin as [->|Hin]; [done|]. by apply IH.
Qed.

(** The entries of [color_mapping] follow the clusters one for one. *)
Lemma color_mapping_entries cluster_centers npixels clusters cm :
  color_mapping cluster_centers npixels clusters = Some cm →
  Forall2 (λ x y, y.1 = x.1
                  ∧ ∃ center, cluster_centers !! x.1 = Some center
                              ∧ y.2 = cluster_entry npixels center x.2)
    clusters cm.
Proof.
  unfold color_mapping. intros H. apply mapM_Some_1 in H.
  eapply Forall2_impl; [exact H|].
  intros [id n] [id' d] Hxy. simpl in *.
  destruct (cluster_centers !! id) as [center|]; [|done].
  simpl in Hxy. injection Hxy as <- <-. eauto.
Qed.

Lemma cluster_entry_count npixels center n :
  cd_count (cluster_entry npixels center n) = n.
Proof. by destruct center as [[? ?] ?]. Qed.

Lemma cluster_entry_percentage npixels center n :
  cd_percentage (cluster_entry npixels center n)
  = fmul (fdiv (inject_Z (Z.of_nat n)) (inject_Z (Z.of_nat npixels))) 100.
Proof. by destruct center as [[? ?] ?]. Qed.

(** The [float64] percentage of a part of the sample is within [2^-45] of
    the exact one. *)
Lemma cluster_percentage_near (n npixels : nat) :
  (0 < npixels)%nat → (n ≤ npixels)%nat →
  (Qabs (fmul (fdiv (inject_Z (Z.of_nat n)) (inject_Z (Z.of_nat npixels))) 100
         - inject_Z (Z.of_nat n) / inject_Z (Z.of_nat npixels) * 100)
     <= 1 # 35184372088832)%Q.
Proof.
  intros Hpos Hle. unfold fmul, fdiv.
  assert (0 < inject_Z (Z.of_nat npixels))%Q as HN.
  { change 0%Q with (inject_Z 0). rewrite <- Zlt_Qlt. lia. }
  assert (0 <= inject_Z (Z.of_nat n))%Q as Hn0.
  { change 0%Q with (inject_Z 0). rewrite <- Zle_Qle. lia. }
  assert (inject_Z (Z.of_nat n) <= inject_Z (Z.of_nat npixels))%Q as HnN.
  { rewrite <- Zle_Qle. lia. }
  set (q := (inject_Z (Z.of_nat n) / inject_Z (Z.of_nat npixels))%Q).
  assert (0 <= q <= 1)%Q as Hq.
  { split.
    - apply Qle_shift_div_l; [done|]. Lqa.lra.
    - apply Qle_shift_div_r; [done|]. Lqa.lra. }
  destruct (round64_near_bound q 1 0 1) as [H1 E1];
    [lia|reflexivity|reflexivity|done|].
  set (f := round64 q) in *.
  change (2 ^ (1 - 54))%Q with (1 # 9007199254740992)%Q in *.
  destruct (round64_near_bound (f * 100) 7 (0 - 1) 101) as [H2 E2];
    [lia|reflexivity|reflexivity|Lqa.lra|].
  set (g := round64 (f * 100)) in *.
  change (2 ^ (7 - 54))%Q with (1 # 140737488355328)%Q in *.
  apply Qabs_Qle_condition. split; Lqa.lra.
Qed.

Lemma cluster_entry_brightness npixels center n :
  cd_brightness (cluster_entry npixels center n) = centroid_brightness center.
Proof. by destruct center as [[? ?] ?]. Qed.

Lemma sorted_clusters_sorted c :
  StronglySorted (λ x y, (y.2 ≤ x.2)%nat) (sorted_clusters c).
Proof.
  eapply StronglySorted_weaken; [|apply py_sorted_sorted].
  - intros x y H. by apply bool_decide_eq_true in H.
  - intros x y H. apply bool_decide_eq_false in H.
    apply bool_decide_eq_true. lia.
  - intros x y z Hxy Hyz. apply bool_decide_eq_true in Hxy, Hyz.
    apply bool_decide_eq_true. lia.
Qed.

Lemma Forall2_StronglySorted {A B} (R : A → A → Prop) (R' : B → B → Prop)
    (P : A → B → Prop) l k :
  (∀ x x' y y', P x y → P x' y' → R x x' → R' y y') →
  Forall2 P l k → StronglySorted R l → StronglySorted R' k.
Proof.
  intros HR HF. induction HF as [|x y l k Hxy HF IH]; intros Hs.
  - constructor.
  - apply StronglySorted_inv in Hs as [Hs Hx].
    constructor; [by apply IH|].
    clear IH Hs. induction HF as [|x' y' l k Hxy' HF IH']; [constructor|].
    apply Forall_cons in Hx as [Hxx' Hx].
    constructor; [by eapply HR|by apply IH'].
Qed.

Lemma counter_add_total k c :
  sum_list_with snd (counter_add k c) = S (sum_list_with snd c).
Proof.
  induction c as [|[k0 n] c IH]; simpl; [done|].
  case_decide; simpl; [done|]. rewrite IH. lia.
Qed.

Lemma Counter_total labels : sum_list_with snd (Counter labels) = length labels.
Proof.
  unfold Counter.
  enough (∀ c, sum_list_with snd (foldl (λ c k, counter_add k c) c labels)
               = (sum_list_with snd c + length labels)%nat) as H by apply (H []).
  induction labels as [|l labels IH]; intros c; simpl; [lia|].
  rewrite IH, counter_add_total. lia.
Qed.

Lemma color_mapping_total cluster_centers npixels clusters cm :
  color_mapping cluster_centers npixels clusters = Some cm →
  sum_list_with (λ x, cd_count x.2) cm = sum_list_with snd clusters.
Proof.
  intros H. apply color_mapping_entries in H.
  induction H as [|[id n] [id' d] clusters cm (_ & center & _ & Hd) _ IHn];
    simpl in *; [done|].
  subst d. by rewrite cluster_entry_count, IHn.
Qed.

Lemma sum_list_with_elem {A} (f : A → nat) (x : A) (l : list A) :
  x ∈ l → (f x ≤ sum_list_with f l)%nat.
Proof.
  induction l as [|y l IH]; intros Hin.
  - by apply elem_of_nil in Hin.
  - simpl. apply elem_of_cons in Hin as [->|Hin]; [lia|].
    apply IH in Hin. lia.
Qed.

(** X1.  The clusters recorded by the calibrator run from the most to the least
    frequent; each one labels at least one sampled pixel and is recorded
    with the number of pixels that carry its label. *)
Theorem cluster_counts_recorded (cluster_centers : list centroid)
    (cluster_labels : list nat) :
  Forall (λ l, (l < length cluster_centers)%nat) cluster_labels →
  ∃ cm,
    color_mapping cluster_centers (length cluster_labels)
      (sorted_clusters (Counter cluster_labels)) = Some cm
    ∧ StronglySorted (λ x y, (cd_count y.2 ≤ cd_count x.2)%nat) cm
    ∧ ∀ id d, (id, d) ∈ cm →
        id ∈ cluster_labels
        ∧ cd_count d = occurrences id cluster_labels
        ∧ (0 < cd_count d)%nat.
Proof.
  intros Hvalid.
  destruct (analyze_atlas_with_kmeans_spec _ _ Hvalid)
    as (cm & _ & Hcm & _ & _ & Hkeys & _).
  exists cm. split; [done|].
  pose proof (color_mapping_entries _ _ _ _ Hcm) as Hentries.
  split.
  - eapply Forall2_StronglySorted; [|exact Hentries|apply sorted_clusters_sorted].
    intros [id n] [id' n'] [i d] [i' d'] (_ & c & _ & Hd) (_ & c' & _ & Hd') Hle.
    simpl in *. subst. by rewrite !cluster_entry_count.
  - intros id d Hin.
    assert (id ∈ cluster_labels) as Hid.
    { apply Hkeys, list_elem_of_fmap. by exists (id, d). }
    split; [done|].
    apply list_elem_of_lookup in Hin as [i Hi].
    destruct (Forall2_lookup_r _ _ _ _ _ Hentries Hi)
      as ([id0 n] & Hi0 & Hid0 & center & _ & Hd).
    simpl in *. subst id0 d. rewrite cluster_entry_count.
    assert (n = occurrences id cluster_labels) as ->.
    { apply Counter_counts. rewrite <- sorted_clusters_perm.
      by eapply list_elem_of_lookup_2. }
    split; [done|]. by apply occurrences_pos.
Qed.

Lemma cluster_counts_recorded_witness :
  ∃ cm,
    color_mapping sixteen_centers (length sparse_labels)
      (sorted_clusters (Counter sparse_labels)) = Some cm
    ∧ StronglySorted (λ x y, (cd_count y.2 ≤ cd_count x.2)%nat) cm
    ∧ ∀ id d, (id, d) ∈ cm →
        id ∈ sparse_labels
        ∧ cd_count d = occurrences id sparse_labels
        ∧ (0 < cd_count d)%nat.
Proof.
  apply (cluster_counts_recorded sixteen_centers sparse_labels).
  repeat constructor.
Defined.

(** X2.  The recorded counts add up to the number of sampled pixels, and
    the percentage recorded for a cluster, [(count / len(pixels)) * 100] in
    [float64], is within [2^-45] of the exact share of its count in the
    sample. *)
Theorem cluster_counts_total (cluster_centers : list centroid)
    (cluster_labels : list nat) :
  cluster_labels ≠ [] →
  Forall (λ l, (l < length cluster_centers)%nat) cluster_labels →
  ∃ cm,
    color_mapping cluster_centers (length cluster_labels)
      (sorted_clusters (Counter cluster_labels)) = Some cm
    ∧ sum_list_with (λ x, cd_count x.2) cm = length cluster_labels
    ∧ ∀ id d, (id, d) ∈ cm →
        cd_percentage d
        = fmul (fdiv (inject_Z (Z.of_nat (cd_count d)))
                     (inject_Z (Z.of_nat (length cluster_labels)))) 100
        ∧ (Qabs (cd_percentage d
                 - inject_Z (Z.of_nat (cd_count d))
                   / inject_Z (Z.of_nat (length cluster_labels)) * 100)
             <= 1 # 35184372088832)%Q.
Proof.
  intros Hne Hvalid.
  destruct (analyze_atlas_with_kmeans_spec _ _ Hvalid)
    as (cm & _ & Hcm & _ & _ & _ & Hdata & _).
  exists cm. split; [done|].
  pose proof (color_mapping_total _ _ _ _ Hcm) as Hn.
  rewrite sorted_clusters_perm, Counter_total in Hn.
  split; [done|]. intros id d Hin.
  pose proof (sum_list_with_elem (λ x, cd_count x.2) _ _ Hin) as Hle.
  rewrite Hn in Hle. simpl in Hle.
  destruct (Hdata _ _ Hin) as (center & n & _ & ->).
  rewrite cluster_entry_count in *. rewrite cluster_entry_percentage.
  split; [done|]. apply cluster_percentage_near; [|done].
  destruct cluster_labels; [done|]. simpl. lia.
Qed.

Lemma cluster_counts_total_witness :
  ∃ cm,
    color_mapping sixteen_centers (length sparse_labels)
      (sorted_clusters (Counter sparse_labels)) = Some cm
    ∧ sum_list_with (λ x, cd_count x.2) cm = length sparse_labels
    ∧ ∀ id d, (id, d) ∈ cm →
        cd_percentage d
        = fmul (fdiv (inject_Z (Z.of_nat (cd_count d)))
                     (inject_Z (Z.of_nat (length sparse_labels)))) 100
        ∧ (Qabs (cd_percentage d
                 - inject_Z (Z.of_nat (cd_count d))
                   / inject_Z (Z.of_nat (length sparse_labels)) * 100)
             <= 1 # 35184372088832)%Q.
Proof.
  apply (cluster_counts_total sixteen_centers sparse_labels).
  - discriminate.
  - repeat constructor.
Defined.

(** A mapping is only returned when every label indexes a centroid. *)
Lemma analyze_atlas_with_kmeans_valid cluster_centers cluster_labels fm :
  analyze_atlas_with_kmeans cluster_centers cluster_labels = Some fm →
  Forall (λ l, (l < length cluster_centers)%nat) cluster_labels.
Proof.
  unfold analyze_atlas_with_kmeans. intros Hfm.
  destruct (color_mapping _ _ _) as [cm|] eqn:Hcm; [|done].
  apply color_mapping_entries in Hcm.
  apply Forall_forall. intros l Hl.
  apply Counter_keys in Hl. apply list_elem_of_fmap in Hl as ([l' n] & -> & Hin).
  rewrite <- sorted_clusters_perm in Hin.
  apply list_elem_of_lookup in Hin as [i Hi].
  destruct (Forall2_lookup_l _ _ _ _ _ Hcm Hi) as (y & _ & _ & center & Hc & _).
  simpl in *. by eapply lookup_lt_Some.
Qed.

(** X3.  The calibrator fails exactly when some label does not index a centroid
    (the [IndexError] of [cluster_centers[cluster_id]]). *)
Theorem calibrator_fails_on_stray_label (cluster_centers : list centroid)
    (cluster_labels : list nat) :
  analyze_atlas_with_kmeans cluster_centers cluster_labels = None
  ↔ ∃ l, l ∈ cluster_labels ∧ (length cluster_centers ≤ l)%nat.
Proof.
  split.
  - intros Hnone.
    destruct (decide (Forall (λ l, (l < length cluster_centers)%nat) cluster_labels))
      as [Hvalid|Hstray].
    + destruct (analyze_atlas_with_kmeans_spec _ _ Hvalid)
        as (cm & fm & _ & Hfm & _). congruence.
    + apply (not_Forall_Exists (λ l, (l < length cluster_centers)%nat))
        in Hstray.
      apply Exists_exists in Hstray as (l & Hl & Hlen).
      exists l. split; [done|]. simpl in Hlen. lia.
  - intros (l & Hl & Hlen).
    destruct (analyze_atlas_with_kmeans cluster_centers cluster_labels)
      as [fm|] eqn:Hfm; [|done].
    apply analyze_atlas_with_kmeans_valid in Hfm.
    rewrite Forall_forall in Hfm. specialize (Hfm l Hl). lia.
Qed.

Lemma StronglySorted_lookup_lt {A} (R : A → A → Prop) l i j x y :
  StronglySorted R l → l !! i = Some x → l !! j = Some y → (i < j)%nat → R x y.
Proof.
  intros Hs. revert i j. induction Hs as [|z l Hs IH Hz]; intros i j Hi Hj Hij.
  - by rewrite lookup_nil in Hi.
  - destruct j as [|j]; [lia|]. simpl in Hj. destruct i as [|i]; simpl in Hi.
    + injection Hi as ->. rewrite Forall_forall in Hz.
      by eapply Hz, list_elem_of_lookup_2.
    + eapply IH; [done..|lia].
Qed.

Lemma table_names_NoDup : NoDup (cinzano_categories.*1.*1).
Proof. apply (bool_decide_unpack _). by vm_compute. Qed.

(** The rows below the border row carry non-decreasing intensities. *)
Lemma table_rows_monotone i j rowi rowj :
  (i < j)%nat → (j < 15)%nat →
  cinzano_categories !! i = Some rowi → cinzano_categories !! j = Some rowj →
  rowi.2 <= rowj.2.
Proof.
  intros Hij Hj Hi Hrj. unfold cinzano_categories in *.
  do 15 (destruct j as [|j];
         [do 15 (destruct i as [|i]; [simpl in *; simplify_eq; simpl; lia|]);
          exfalso; lia|]).
  lia.
Qed.

Lemma table_border_row i row :
  cinzano_categories !! i = Some row →
  row.1.1 = "White 2/Border" ↔ i = 15%nat.
Proof.
  intros Hrow. split.
  - intros Hname. unfold cinzano_categories in Hrow.
    do 16 (destruct i as [|i]; [simpl in Hrow; simplify_eq; try done|]).
    simpl in Hrow. discriminate.
  - intros ->. simpl in Hrow. by simplify_eq.
Qed.

(** What a mapping made by the calibrator holds: the ranks. *)
Lemma analyze_atlas_with_kmeans_ranks cluster_centers cluster_labels fm :
  analyze_atlas_with_kmeans cluster_centers cluster_labels = Some fm →
  ∃ cm,
    color_mapping cluster_centers (length cluster_labels)
      (sorted_clusters (Counter cluster_labels)) = Some cm
    ∧ NoDup cm.*1
    ∧ (∀ id, id ∈ cm.*1 ↔ id ∈ cluster_labels)
    ∧ ∀ id entry, fm !! id = Some entry ↔
        ∃ i d row, brightness_sorted cm !! i = Some (id, d)
                   ∧ cinzano_categories !! i = Some row
                   ∧ entry = bound_entry d row.
Proof.
  intros Hfm.
  pose proof (analyze_atlas_with_kmeans_valid _ _ _ Hfm) as Hvalid.
  destruct (analyze_atlas_with_kmeans_spec _ _ Hvalid)
    as (cm & fm' & Hcm & Hfm' & Hnd & Hkeys & _ & Hrank & Hother).
  assert (fm' = fm) as -> by congruence.
  exists cm. split; [done|]. split; [done|]. split; [done|].
  intros id entry. split.
  - intros Hid.
    destruct (decide (id ∈ cm.*1)) as [Hin|Hout].
    + apply list_elem_of_fmap in Hin as ([id' d] & -> & Hin).
      rewrite <- brightness_sorted_perm in Hin. simpl in *.
      apply list_elem_of_lookup in Hin as [i Hi].
      rewrite (Hrank _ _ _ Hi) in Hid.
      destruct (cinzano_categories !! i) as [row|] eqn:Hrow; [|done].
      simpl in Hid. injection Hid as <-. by exists i, d, row.
    + rewrite (Hother _ Hout) in Hid. done.
  - intros (i & d & row & Hi & Hrow & ->).
    by rewrite (Hrank _ _ _ Hi), Hrow.
Qed.

Lemma color_mapping_data cluster_centers npixels clusters cm id d :
  color_mapping cluster_centers npixels clusters = Some cm →
  (id, d) ∈ cm →
  ∃ center n, cluster_centers !! id = Some center
              ∧ d = cluster_entry npixels center n.
Proof.
  intros Hcm Hin. apply color_mapping_entries in Hcm.
  apply list_elem_of_lookup in Hin as [i Hi].
  destruct (Forall2_lookup_r _ _ _ _ _ Hcm Hi)
    as ([id0 n] & _ & Hid0 & center & Hc & Hd).
  simpl in *. subst id0. eauto.
Qed.

(** X4.  With at most as many clusters as the table has rows, the mapping binds
    exactly the cluster ids that label a sampled pixel: a cluster without
    sampled pixels gets no entry. *)
Theorem mapping_binds_labelled_clusters (cluster_centers : list centroid)
    (cluster_labels : list nat) (final_mapping : gmap nat mapping_entry)
    (id : nat) :
  (length cluster_centers ≤ length cinzano_categories)%nat →
  analyze_atlas_with_kmeans cluster_centers cluster_labels = Some final_mapping →
  is_Some (final_mapping !! id) ↔ id ∈ cluster_labels.
Proof.
  intros HK Hfm.
  destruct (analyze_atlas_with_kmeans_ranks _ _ _ Hfm)
    as (cm & Hcm & Hnd & Hkeys & Hbound).
  split.
  - intros [entry Hentry]. apply Hbound in Hentry as (i & d & row & Hi & _).
    apply Hkeys, list_elem_of_fmap. exists (id, d). split; [done|].
    rewrite <- brightness_sorted_perm. by eapply list_elem_of_lookup_2.
  - intros Hid. apply Hkeys in Hid.
    apply list_elem_of_fmap in Hid as ([id' d] & -> & Hin). simpl.
    rewrite <- brightness_sorted_perm in Hin.
    apply list_elem_of_lookup in Hin as [i Hi].
    assert (i < length cinzano_categories)%nat as Hlt.
    { apply lookup_lt_Some in Hi. rewrite brightness_sorted_perm in Hi.
      rewrite <- (length_fmap fst cm) in Hi.
      assert (length cm.*1 ≤ length cluster_centers)%nat; [|lia].
      apply NoDup_below_length; [done|]. intros k Hk. apply Hkeys in Hk.
      pose proof (analyze_atlas_with_kmeans_valid _ _ _ Hfm) as Hvalid.
      rewrite Forall_forall in Hvalid. by apply Hvalid. }
    apply lookup_lt_is_Some_2 in Hlt as [row Hrow].
    exists (bound_entry d row). apply Hbound. by exists i, d, row.
Qed.

Lemma mapping_binds_labelled_clusters_witness :
  is_Some (sparse_mapping !! 15%nat) ↔ 15%nat ∈ sparse_labels.
Proof.
  apply (mapping_binds_labelled_clusters sixteen_centers sparse_labels
           sparse_mapping 15).
  - simpl. lia.
  - reflexivity.
Defined.

(** X5.  No two clusters share a category: the calibrator binds distinct
    cluster ids to distinct rows of the table. *)
Theorem mapping_categories_distinct (cluster_centers : list centroid)
    (cluster_labels : list nat) (final_mapping : gmap nat mapping_entry)
    (a b : nat) (ea eb : mapping_entry) :
  analyze_atlas_with_kmeans cluster_centers cluster_labels = Some final_mapping →
  final_mapping !! a = Some ea →
  final_mapping !! b = Some eb →
  a ≠ b →
  category ea ≠ category eb.
Proof.
  intros Hfm Ha Hb Hab Hcat.
  destruct (analyze_atlas_with_kmeans_ranks _ _ _ Hfm)
    as (cm & _ & _ & _ & Hbound).
  apply Hbound in Ha as (ia & da & rowa & Hia & Hrowa & ->).
  apply Hbound in Hb as (ib & db & rowb & Hib & Hrowb & ->).
  simpl in Hcat.
  assert (ia = ib) as ->.
  { apply (NoDup_lookup (cinzano_categories.*1.*1) ia ib (rowa.1.1));
      [apply table_names_NoDup| |].
    - by rewrite !list_lookup_fmap, Hrowa.
    - by rewrite !list_lookup_fmap, Hrowb, Hcat. }
  congruence.
Qed.

Lemma mapping_categories_distinct_witness :
  category {| rgb := (0, 0, 0); category := "Black 1"; intensity := 0;
              ratio_range := "<0.01" |}
  ≠ category {| rgb := (255, 255, 255); category := "Black 2"; intensity := 8;
                ratio_range := "0.01-0.06" |}.
Proof.
  apply (mapping_categories_distinct sixteen_centers sparse_labels
           sparse_mapping 0 15).
  - reflexivity.
  - reflexivity.
  - reflexivity.
  - lia.
Defined.

(** A strictly darker cluster is bound to an earlier row of the table. *)
Lemma darker_cluster_lower_rank cluster_centers cluster_labels fm a b
    (ca cb : centroid) ea eb :
  analyze_atlas_with_kmeans cluster_centers cluster_labels = Some fm →
  cluster_centers !! a = Some ca →
  cluster_centers !! b = Some cb →
  fm !! a = Some ea →
  fm !! b = Some eb →
  (centroid_brightness ca < centroid_brightness cb)%Q →
  ∃ ia ib rowa rowb,
    (ia < ib)%nat
    ∧ cinzano_categories !! ia = Some rowa
    ∧ cinzano_categories !! ib = Some rowb
    ∧ category ea = rowa.1.1 ∧ intensity ea = rowa.2
    ∧ category eb = rowb.1.1 ∧ intensity eb = rowb.2.
Proof.
  intros Hfm Hca Hcb Ha Hb Hlt.
  destruct (analyze_atlas_with_kmeans_ranks _ _ _ Hfm)
    as (cm & Hcm & _ & _ & Hbound).
  apply Hbound in Ha as (ia & da & rowa & Hia & Hrowa & ->).
  apply Hbound in Hb as (ib & db & rowb & Hib & Hrowb & ->).
  assert (cd_brightness da = centroid_brightness ca) as Hda.
  { destruct (color_mapping_data _ _ _ _ a da Hcm) as (c & n & Hc & ->).
    { rewrite <- brightness_sorted_perm. by eapply list_elem_of_lookup_2. }
    rewrite cluster_entry_brightness. congruence. }
  assert (cd_brightness db = centroid_brightness cb) as Hdb.
  { destruct (color_mapping_data _ _ _ _ b db Hcm) as (c & n & Hc & ->).
    { rewrite <- brightness_sorted_perm. by eapply list_elem_of_lookup_2. }
    rewrite cluster_entry_brightness. congruence. }
  exists ia, ib, rowa, rowb. repeat split; try done.
  destruct (decide (ia < ib)%nat) as [|Hge]; [done|]. exfalso.
  destruct (decide (ia = ib)) as [->|Hne].
  - assert (da = db) as -> by congruence.
    rewrite Hda in Hdb. rewrite Hdb in Hlt. by apply Qlt_irrefl in Hlt.
  - pose proof (StronglySorted_lookup_lt _ _ ib ia _ _
                  (brightness_sorted_sorted cm) Hib Hia) as Hle.
    simpl in Hle. rewrite Hda, Hdb in Hle.
    apply (Qlt_irrefl (centroid_brightness ca)).
    eapply Qlt_le_trans; [exact Hlt|]. apply Hle. lia.
Qed.

Lemma not_border_row_below (eb : mapping_entry) ib rowb :
  cinzano_categories !! ib = Some rowb →
  category eb = rowb.1.1 →
  is_border eb = false →
  (ib < 15)%nat.
Proof.
  intros Hrowb Hcat Hborder.
  assert (ib < 16)%nat by (apply lookup_lt_Some in Hrowb; by rewrite table_length in Hrowb).
  assert (ib ≠ 15%nat); [|lia].
  intros Hlast. apply (table_border_row _ _ Hrowb) in Hlast.
  unfold is_border in Hborder. rewrite bool_decide_eq_false in Hborder.
  congruence.
Qed.

(** X6.  A cluster whose [float64] brightness is strictly smaller never gets
    more intensity than a brighter one, unless the brighter one is bound to
    the border category. *)
Theorem darker_cluster_not_brighter (cluster_centers : list centroid)
    (cluster_labels : list nat) (final_mapping : gmap nat mapping_entry)
    (a b : nat) (ca cb : centroid) (ea eb : mapping_entry) :
  analyze_atlas_with_kmeans cluster_centers cluster_labels = Some final_mapping →
  cluster_centers !! a = Some ca →
  cluster_centers !! b = Some cb →
  final_mapping !! a = Some ea →
  final_mapping !! b = Some eb →
  (centroid_brightness ca < centroid_brightness cb)%Q →
  is_border eb = false →
  intensity ea <= intensity eb.
Proof.
  intros Hfm Hca Hcb Ha Hb Hlt Hborder.
  destruct (darker_cluster_lower_rank _ _ _ _ _ _ _ _ _ Hfm Hca Hcb Ha Hb Hlt)
    as (ia & ib & rowa & rowb & Hrank & Hrowa & Hrowb & _ & -> & Hcat & ->).
  apply (table_rows_monotone ia ib); [done| |done|done].
  by eapply not_border_row_below.
Qed.

Lemma darker_cluster_not_brighter_witness : 16 <= 48.
Proof.
  apply (darker_cluster_not_brighter sixteen_centers sixteen_labels
           sixteen_mapping 2 5 (34, 34, 34)%Q (85, 85, 85)%Q
           {| rgb := (34, 34, 34); category := "Dark Gray 1"; intensity := 16;
              ratio_range := "0.06-0.11" |}
           {| rgb := (85, 85, 85); category := "Blue 2"; intensity := 48;
              ratio_range := "0.33-0.58" |}).
  - by vm_compute.
  - reflexivity.
  - reflexivity.
  - reflexivity.
  - reflexivity.
  - by vm_compute.
  - reflexivity.
Defined.

(** * Further properties of the contrast enhancement *)

Lemma sum_bounds (px : list Z) lo hi :
  Forall (λ v, lo <= v <= hi) px →
  lo * Z.of_nat (length px) <= foldr Z.add 0 px <= hi * Z.of_nat (length px).
Proof.
  induction 1 as [|v px Hv _ IH]; simpl foldr; simpl length; [lia|].
  rewrite Nat2Z.inj_succ. lia.
Qed.

Lemma stat_mean_bounds (image : list (list Z)) lo hi m :
  (∀ r u, r ∈ image → u ∈ r → lo <= u <= hi) →
  stat_mean image = Some m →
  (inject_Z lo <= m <= inject_Z hi)%Q.
Proof.
  intros Hrange. unfold stat_mean.
  destruct (concat image) as [|v px] eqn:Hpx; [done|].
  intros [= <-].
  assert (Forall (λ u, lo <= u <= hi) (v :: px)) as Hall.
  { rewrite <- Hpx. apply Forall_forall. intros u Hu.
    apply list_elem_of_In, in_concat in Hu as (r & Hr & Hu).
    apply list_elem_of_In in Hr, Hu. by eapply Hrange. }
  apply sum_bounds in Hall.
  set (n := Z.of_nat (length (v :: px))) in *.
  assert (0 < n) as Hn by (unfold n; simpl; lia).
  assert (0 < inject_Z n)%Q as HnQ by (by rewrite <- (Zlt_Qlt 0)).
  split.
  - apply Qle_shift_div_l; [done|].
    rewrite <- inject_Z_mult, <- Zle_Qle. apply Hall.
  - apply Qle_shift_div_r; [done|].
    rewrite <- inject_Z_mult, <- Zle_Qle. apply Hall.
Qed.

(** [int(mean + 0.5)] of a mean between two integers lies between them. *)
Lemma rounded_mean_bounds m lo hi :
  0 <= lo →
  (inject_Z lo <= m <= inject_Z hi)%Q →
  lo <= py_int (m + (1 # 2)) <= hi.
Proof.
  intros Hlo [Hm1 Hm2].
  assert (0 <= m)%Q as Hm0.
  { eapply Qle_trans; [|exact Hm1]. by rewrite <- (Zle_Qle 0). }
  assert (0 <= m + (1 # 2))%Q as Hpos.
  { replace 0%Q with (0 + 0)%Q by done. by apply Qplus_le_compat. }
  rewrite py_int_nonneg by done. split.
  - rewrite <- (Qfloor_Z lo). apply Qfloor_resp_le.
    rewrite <- (Qplus_0_r (inject_Z lo)). by apply Qplus_le_compat.
  - assert (inject_Z (Qfloor (m + (1 # 2))) < inject_Z (hi + 1))%Q as Hlt.
    { eapply Qle_lt_trans; [apply Qfloor_le|].
      rewrite inject_Z_plus, (Qplus_comm m), (Qplus_comm (inject_Z hi)).
      by apply Qplus_lt_le_compat. }
    rewrite <- Zlt_Qlt in Hlt. lia.
Qed.

Lemma clipped_int v :
  0 <= v <= 255 →
  (if Qle_bool (inject_Z v) 0 then 0
   else if Qle_bool 255 (inject_Z v) then 255 else py_int (inject_Z v)) = v.
Proof.
  intros Hv.
  destruct (Qle_bool (inject_Z v) 0) eqn:H0.
  - apply Qle_bool_iff in H0. unfold Qle in H0. simpl in H0. lia.
  - destruct (Qle_bool 255 (inject_Z v)) eqn:H255.
    + apply Qle_bool_iff in H255. unfold Qle in H255. simpl in H255. lia.
    + unfold py_int. simpl. apply Z.quot_1_r.
Qed.

Lemma blend_value_extrapolated mean v alpha :
  (1 < alpha)%Q →
  blend_value mean v alpha =
    let temp := (inject_Z mean + alpha * inject_Z (v - mean))%Q in
    if Qle_bool temp 0 then 0
    else if Qle_bool 255 temp then 255 else py_int temp.
Proof.
  intros Halpha. unfold blend_value.
  assert (Qeq_bool alpha 0 = false) as ->.
  { destruct (Qeq_bool alpha 0) eqn:H0; [|done]. apply Qeq_bool_eq in H0.
    rewrite H0 in Halpha. by vm_compute in Halpha. }
  assert (Qeq_bool alpha 1 = false) as ->.
  { destruct (Qeq_bool alpha 1) eqn:H1; [|done]. apply Qeq_bool_eq in H1.
    rewrite H1 in Halpha. by apply Qlt_irrefl in Halpha. }
  assert (Qle_bool alpha 1 = false) as ->.
  { destruct (Qle_bool alpha 1) eqn:H1; [|done]. apply Qle_bool_iff in H1.
    exfalso. apply (Qlt_irrefl 1). by eapply Qlt_le_trans. }
  by rewrite andb_false_r.
Qed.

(** A factor of at least 1 moves a pixel away from the mean, or leaves it. *)
Lemma blend_value_stretch mean v alpha :
  (1 <= alpha)%Q → 0 <= v <= 255 →
  (mean <= v → v <= blend_value mean v alpha)
  ∧ (v <= mean → blend_value mean v alpha <= v).
Proof.
  intros Halpha Hv.
  destruct (Qeq_bool alpha 1) eqn:H1.
  - assert (blend_value mean v alpha = v) as ->; [|lia].
    unfold blend_value. rewrite H1.
    destruct (Qeq_bool alpha 0) eqn:H0; [|done].
    apply Qeq_bool_eq in H0. rewrite H0 in Halpha. by vm_compute in Halpha.
  - assert (1 < alpha)%Q as Hgt.
    { apply Qle_lteq in Halpha as [Hlt|Heq]; [done|].
      symmetry in Heq. apply Qeq_bool_iff in Heq. congruence. }
    rewrite blend_value_extrapolated by done. simpl.
    assert (inject_Z v == inject_Z mean + 1 * inject_Z (v - mean))%Q as Hvq.
    { unfold Z.sub. rewrite inject_Z_plus, inject_Z_opp. ring. }
    split; intros Hm.
    + etrans; [|apply (clipped_mono (inject_Z v))]; [by rewrite clipped_int|].
      rewrite Hvq. apply Qplus_le_r, Qmult_le_compat_r; [done|].
      rewrite <- (Zle_Qle 0). lia.
    + etrans; [apply (clipped_mono _ (inject_Z v))|by rewrite clipped_int].
      rewrite Hvq. apply Qplus_le_r.
      assert (inject_Z (v - mean) <= 0)%Q as Hc.
      { rewrite <- (Zle_Qle _ 0). lia. }
      Lqa.nra.
Qed.

Lemma Contrast_enhance_cell (image enhanced : list (list Z)) factor y x row v :
  Contrast_enhance image factor = Some enhanced →
  image !! y = Some row → row !! x = Some v →
  ∃ m r', stat_mean image = Some m
          ∧ enhanced !! y = Some r'
          ∧ r' !! x = Some (blend_value (py_int (m + (1 # 2))) v factor).
Proof.
  unfold Contrast_enhance. intros He Hy Hx.
  destruct (stat_mean image) as [m|]; [|done].
  simpl in He. injection He as <-. exists m. eexists. split; [done|].
  rewrite list_lookup_fmap, Hy. split; [done|].
  by rewrite list_lookup_fmap, Hx.
Qed.

(** X8.  With a factor of at least 1 on an 8-bit image, the enhancement leaves
    the pixels at the rounded mean as they are, never lowers a pixel above
    it and never raises a pixel below it. *)
Theorem contrast_stretches_about_mean (image : list (list Z)) (factor : Q)
    (y x : nat) (row : list Z) (v : Z) :
  (1 <= factor)%Q →
  (∀ r u, r ∈ image → u ∈ r → 0 <= u <= 255) →
  image !! y = Some row →
  row !! x = Some v →
  ∃ m enhanced r' v',
    stat_mean image = Some m
    ∧ Contrast_enhance image factor = Some enhanced
    ∧ enhanced !! y = Some r' ∧ r' !! x = Some v'
    ∧ 0 <= py_int (m + (1 # 2)) <= 255
    ∧ (py_int (m + (1 # 2)) <= v → v <= v')
    ∧ (v <= py_int (m + (1 # 2)) → v' <= v).
Proof.
  intros Hf Hrange Hy Hx.
  destruct (Contrast_enhance_Some image factor) as [mean He].
  { by eapply concat_nonempty. }
  destruct (Contrast_enhance_cell _ _ _ _ _ _ _ He Hy Hx) as (m & r' & Hm & Hr' & Hv').
  eexists m, _, r', _. split; [done|]. split; [done|]. split; [done|].
  split; [done|]. split.
  - apply rounded_mean_bounds; [done|]. by eapply stat_mean_bounds.
  - apply blend_value_stretch; [done|].
    eapply Hrange; by eapply list_elem_of_lookup_2.
Qed.

Lemma contrast_stretches_about_mean_witness :
  ∃ m enhanced r' v',
    stat_mean [[0; 10]; [255; 100]] = Some m
    ∧ Contrast_enhance [[0; 10]; [255; 100]] (13 # 10) = Some enhanced
    ∧ enhanced !! 1%nat = Some r' ∧ r' !! 1%nat = Some v'
    ∧ 0 <= py_int (m + (1 # 2)) <= 255
    ∧ (py_int (m + (1 # 2)) <= 100 → 100 <= v')
    ∧ (100 <= py_int (m + (1 # 2)) → v' <= 100).
Proof.
  apply (contrast_stretches_about_mean [[0; 10]; [255; 100]] (13 # 10)
           1 1 [255; 100] 100).
  - done.
  - intros r u Hr Hu.
    repeat (apply elem_of_cons in Hr as [->|Hr]);
      [| |by apply elem_of_nil in Hr];
      repeat (apply elem_of_cons in Hu as [->|Hu]);
      try lia; by apply elem_of_nil in Hu.
  - reflexivity.
  - reflexivity.
Defined.

(** * Further properties of the direct-channel remapper *)

Lemma Qpower_positive_le x y p :
  (0 <= x)%Q → (x <= y)%Q → (Qpower_positive x p <= Qpower_positive y p)%Q.
Proof.
  intros Hx Hxy. induction p as [|p IH] using Pos.peano_ind; [done|].
  rewrite <- Pos.add_1_r, !Qpower_plus_positive.
  apply Qmult_le_compat_nonneg; split; try done.
  by apply Qpower_pos_positive.
Qed.

Lemma normalized_mono g1 g2 : (g1 <= g2)%Q → (normalized g1 <= normalized g2)%Q.
Proof.
  intros Hg. unfold normalized, np_clip.
  apply Q.min_le_compat_r, Q.max_le_compat_r.
  unfold Qdiv. by apply Qmult_le_compat_r.
Qed.

Lemma below_power_mono n x1 x2 :
  (0 <= x1)%Q → (x1 <= x2)%Q → below_power n x1 = true → below_power n x2 = true.
Proof.
  unfold below_power. intros H0 Hx H1. apply Qle_bool_iff in H1.
  apply Qle_bool_iff. eapply Qle_trans; [exact H1|].
  by apply (Qpower_positive_le x1 x2 7).
Qed.

Lemma search_power_mono k x1 x2 :
  (0 <= x1)%Q → (x1 <= x2)%Q → search_power k x1 <= search_power k x2.
Proof.
  intros H0 Hx. induction k as [|k IH]; simpl search_power; [lia|].
  destruct (below_power (Z.of_nat (S k)) x1) eqn:H1.
  - by rewrite (below_power_mono _ _ _ H0 Hx H1).
  - destruct (below_power (Z.of_nat (S k)) x2); [|done].
    pose proof (search_power_range k x1). lia.
Qed.

Lemma lightmap_value_mono (p1 p2 : pixel) :
  p1.1.1 <= p2.1.1 → lightmap_value p1 <= lightmap_value p2.
Proof.
  intros Hred. unfold lightmap_value, power_scale_uint8, grayscale_value.
  apply search_power_mono; [apply normalized_range|].
  apply normalized_mono. by rewrite <- Zle_Qle.
Qed.

(** Consecutive raw levels of the atlas get different lightmap values. *)
Lemma lightmap_value_step (r : nat) (g1 b1 g2 b2 : Z) :
  (r < 37)%nat →
  lightmap_value (Z.of_nat r, g1, b1) < lightmap_value (Z.of_nat (S r), g2, b2).
Proof.
  intros Hr. unfold lightmap_value, grayscale_value. simpl fst.
  do 37 (destruct r as [|r]; [by vm_compute|]). lia.
Qed.

Lemma lightmap_value_extremes (p : pixel) :
  (p.1.1 <= 0 → lightmap_value p = 0) ∧ (37 <= p.1.1 → lightmap_value p = 255).
Proof.
  pose proof (lightmap_value_range p). split.
  - intros H0. pose proof (lightmap_value_mono p (0, 0, 0) H0) as Hle.
    assert (lightmap_value (0, 0, 0) = 0) as Hz by by vm_compute.
    lia.
  - intros H37. pose proof (lightmap_value_mono (37, 0, 0) p H37) as Hle.
    assert (lightmap_value (37, 0, 0) = 255) as Hz by by vm_compute.
    lia.
Qed.

(** X9.  The direct-channel value never decreases with the raw value; it is 0 up
    to raw 0 and 255 from raw 37 on. *)
Theorem direct_channel_monotone_saturating (p1 p2 : pixel) :
  p1.1.1 <= p2.1.1 →
  lightmap_value p1 <= lightmap_value p2
  ∧ (p1.1.1 <= 0 → lightmap_value p1 = 0)
  ∧ (37 <= p2.1.1 → lightmap_value p2 = 255).
Proof.
  intros Hred. split; [by apply lightmap_value_mono|]. split.
  - apply lightmap_value_extremes.
  - apply lightmap_value_extremes.
Qed.

Lemma direct_channel_monotone_saturating_witness :
  lightmap_value (0, 9, 9) <= lightmap_value (40, 1, 2)
  ∧ (0 <= 0 → lightmap_value (0, 9, 9) = 0)
  ∧ (37 <= 40 → lightmap_value (40, 1, 2) = 255).
Proof.
  apply (direct_channel_monotone_saturating (0, 9, 9) (40, 1, 2)).
  simpl. lia.
Defined.

(** X10.  On the atlas range, raw values 0 to 37, distinct raw values get
    distinct lightmap values: the 38 gradations stay apart. *)
Theorem direct_channel_keeps_gradations (p1 p2 : pixel) :
  0 <= p1.1.1 → p1.1.1 < p2.1.1 → p2.1.1 <= 37 →
  lightmap_value p1 < lightmap_value p2.
Proof.
  destruct p1 as [[r1 g1] b1], p2 as [[r2 g2] b2]. simpl. intros H0 Hlt H37.
  assert (lightmap_value (r1, g1, b1) < lightmap_value (r1 + 1, g2, b2)) as Hstep.
  { rewrite <- (Z2Nat.id r1) by done.
    replace (Z.of_nat (Z.to_nat r1) + 1) with (Z.of_nat (S (Z.to_nat r1))) by lia.
    apply lightmap_value_step. lia. }
  assert (lightmap_value (r1 + 1, g2, b2) <= lightmap_value (r2, g2, b2)) as Hle.
  { apply lightmap_value_mono. simpl. lia. }
  lia.
Qed.

Lemma direct_channel_keeps_gradations_witness :
  lightmap_value (17, 0, 0) < lightmap_value (18, 5, 5).
Proof.
  apply (direct_channel_keeps_gradations (17, 0, 0) (18, 5, 5)); simpl; lia.
Defined.

(** X11.  The power curve brightens: strictly inside the atlas range the value is
    above the linear scaling of the raw value to 255. *)
Theorem direct_channel_brightens (p : pixel) :
  0 < p.1.1 → p.1.1 < 37 →
  255 * p.1.1 / 37 < lightmap_value p.
Proof.
  destruct p as [[r g] b]. simpl. intros H0 H37.
  unfold lightmap_value, grayscale_value. simpl fst.
  rewrite <- (Z2Nat.id r) by lia.
  assert (0 < Z.to_nat r < 37)%nat as Hn by lia.
  destruct (Z.to_nat r) as [|n]; [lia|].
  do 36 (destruct n as [|n]; [by vm_compute|]). lia.
Qed.

Lemma direct_channel_brightens_witness :
  255 * 10 / 37 < lightmap_value (10, 10, 10).
Proof.
  apply (direct_channel_brightens (10, 10, 10)); simpl; lia.
Defined.

(** * The decoders end to end *)

(** On an 8-bit image and with a factor above 1, black stays black and
    white stays white. *)
Lemma Contrast_enhance_extremes (image : list (list Z)) factor y x row v :
  (1 < factor)%Q →
  (∀ r u, r ∈ image → u ∈ r → 0 <= u <= 255) →
  image !! y = Some row → row !! x = Some v →
  ∃ enhanced r' v',
    Contrast_enhance image factor = Some enhanced
    ∧ enhanced !! y = Some r' ∧ r' !! x = Some v'
    ∧ (v = 0 → v' = 0) ∧ (v = 255 → v' = 255).
Proof.
  intros Hf Hrange Hy Hx.
  destruct (Contrast_enhance_Some image factor) as [mean He].
  { by eapply concat_nonempty. }
  destruct (Contrast_enhance_cell _ _ _ _ _ _ _ He Hy Hx)
    as (m & r' & Hm & Hr' & Hv').
  eexists _, r', _. split; [done|]. split; [done|]. split; [done|].
  pose proof (rounded_mean_bounds m 0 255 (Z.le_refl 0)
                (stat_mean_bounds image 0 255 m Hrange Hm)) as Hmean.
  pose proof (blend_value_clipped (py_int (m + (1 # 2))) v factor Hf) as Hclip.
  split; intros ->.
  - destruct (blend_value_stretch (py_int (m + (1 # 2))) 0 factor) as [_ Hdown];
      [by apply Qlt_le_weak|lia|]. lia.
  - destruct (blend_value_stretch (py_int (m + (1 # 2))) 255 factor) as [Hup _];
      [by apply Qlt_le_weak|lia|]. lia.
Qed.

Lemma convert_RGB_lookup (image : list (list Z)) y x row v :
  image !! y = Some row → row !! x = Some v →
  ∃ r, convert_RGB image !! y = Some r ∧ r !! x = Some (v, v, v).
Proof.
  intros Hy Hx. unfold convert_RGB. eexists.
  rewrite list_lookup_fmap, Hy. split; [done|].
  by rewrite list_lookup_fmap, Hx.
Qed.

(** X12.  In the image saved by the classified decoder, a pixel remapped to 0
    (its cluster is bound to the border category or to a category of
    intensity 0, or has no binding) is black: the contrast enhancement does
    not lift it. *)
Theorem suppressed_pixel_black_in_final_image
    (color_mapping : gmap nat mapping_entry) (kmeans_model : list centroid)
    (img_array : list (list pixel)) (y x : nat) (row : list pixel) (p : pixel) :
  mapping_fits color_mapping →
  img_array !! y = Some row →
  row !! x = Some p →
  pixel_intensity color_mapping kmeans_model p = 0 →
  ∃ final_img r,
    decode_atlas_to_lightmap_kmeans color_mapping kmeans_model img_array
    = Some final_img
    ∧ final_img !! y = Some r ∧ r !! x = Some (0, 0, 0).
Proof.
  intros Hfits Hy Hx Hzero. unfold decode_atlas_to_lightmap_kmeans.
  rewrite (lightmap_array_Some _ _ _ Hfits). simpl.
  set (lm := map (map (pixel_intensity color_mapping kmeans_model)) img_array).
  destruct (Contrast_enhance_extremes lm (13 # 10) y x
              (map (pixel_intensity color_mapping kmeans_model) row) 0)
    as (enhanced & r' & v' & He & Hr' & Hv' & Hblack & _).
  - done.
  - intros r u Hr Hu. unfold lm in Hr.
    apply list_elem_of_fmap in Hr as (row0 & -> & _).
    apply list_elem_of_fmap in Hu as (q & -> & _).
    by apply pixel_intensity_range.
  - unfold lm. by rewrite list_lookup_fmap, Hy.
  - by rewrite list_lookup_fmap, Hx, <- Hzero.
  - rewrite He. simpl. rewrite Hblack in Hv' by done.
    destruct (convert_RGB_lookup enhanced y x r' 0 Hr' Hv') as (r & Hr & Hc).
    by exists (convert_RGB enhanced), r.
Qed.

Lemma suppressed_pixel_black_in_final_image_witness :
  ∃ final_img r,
    decode_atlas_to_lightmap_kmeans sixteen_mapping sixteen_centers
      [[(0, 0, 0); (255, 255, 255)]; [(120, 120, 120); (200, 10, 10)]]
    = Some final_img
    ∧ final_img !! 0%nat = Some r ∧ r !! 1%nat = Some (0, 0, 0).
Proof.
  apply (suppressed_pixel_black_in_final_image sixteen_mapping sixteen_centers
           [[(0, 0, 0); (255, 255, 255)]; [(120, 120, 120); (200, 10, 10)]]
           0 1 [(0, 0, 0); (255, 255, 255)] (255, 255, 255)).
  - apply (analyze_atlas_with_kmeans_fits sixteen_centers sixteen_labels).
    reflexivity.
  - reflexivity.
  - reflexivity.
  - by vm_compute.
Defined.

(** X13.  In the image saved by the direct-channel decoder, a pixel of raw value
    0 or less is black and a pixel of raw value 37 or more is white. *)
Theorem direct_channel_extremes_in_final_image (img_array : list (list pixel))
    (y x : nat) (row : list pixel) (p : pixel) :
  img_array !! y = Some row →
  row !! x = Some p →
  ∃ final_img r c,
    process_grayscale_atlas img_array = Some final_img
    ∧ final_img !! y = Some r ∧ r !! x = Some c
    ∧ (p.1.1 <= 0 → c = (0, 0, 0))
    ∧ (37 <= p.1.1 → c = (255, 255, 255)).
Proof.
  intros Hy Hx. unfold process_grayscale_atlas.
  set (lm := map (map lightmap_value) img_array).
  destruct (Contrast_enhance_extremes lm (12 # 10) y x
              (map lightmap_value row) (lightmap_value p))
    as (enhanced & r' & v' & He & Hr' & Hv' & Hblack & Hwhite).
  - done.
  - intros r u Hr Hu. unfold lm in Hr.
    apply list_elem_of_fmap in Hr as (row0 & -> & _).
    apply list_elem_of_fmap in Hu as (q & -> & _).
    apply lightmap_value_range.
  - unfold lm. by rewrite list_lookup_fmap, Hy.
  - by rewrite list_lookup_fmap, Hx.
  - rewrite He. simpl.
    destruct (convert_RGB_lookup enhanced y x r' v' Hr' Hv') as (r & Hr & Hc).
    exists (convert_RGB enhanced), r, (v', v', v').
    split; [done|]. split; [done|]. split; [done|].
    destruct (lightmap_value_extremes p) as [H0 H37].
    split; intros Hraw.
    + by rewrite Hblack by auto.
    + by rewrite Hwhite by auto.
Qed.

Lemma direct_channel_extremes_in_final_image_witness :
  ∃ final_img r c,
    process_grayscale_atlas [[(0, 0, 0); (10, 10, 10)]; [(37, 37, 37); (20, 20, 20)]]
    = Some final_img
    ∧ final_img !! 1%nat = Some r ∧ r !! 0%nat = Some c
    ∧ (37 <= 0 → c = (0, 0, 0))
    ∧ (37 <= 37 → c = (255, 255, 255)).
Proof.
  apply (direct_channel_extremes_in_final_image
           [[(0, 0, 0); (10, 10, 10)]; [(37, 37, 37); (20, 20, 20)]]
           1 0 [(37, 37, 37); (20, 20, 20)] (37, 37, 37)).
  - reflexivity.
  - reflexivity.
Defined.

(** * The maximum-channel decoder *)

Lemma np_max3_range (p : pixel) :
  0 <= p.1.1 <= 255 → 0 <= p.1.2 <= 255 → 0 <= p.2 <= 255 →
  0 <= np_max3 p <= 255.
Proof. unfold np_max3. lia. Qed.

(** X14.  The heatmap decoder completes on a grid that has pixels; its image is
    gray, 8-bit, and ordered as the channel maxima of the pixels: a pixel
    whose largest channel is not above that of another does not come out
    brighter. *)
Theorem process_heatmap_ordered (img_array : list (list pixel))
    (y1 x1 y2 x2 : nat) (r1 r2 : list pixel) (p1 p2 : pixel) :
  img_array !! y1 = Some r1 → r1 !! x1 = Some p1 →
  img_array !! y2 = Some r2 → r2 !! x2 = Some p2 →
  np_max3 p1 <= np_max3 p2 →
  ∃ final_img r1' r2' v1 v2,
    process_heatmap img_array = Some final_img
    ∧ final_img !! y1 = Some r1' ∧ r1' !! x1 = Some (v1, v1, v1)
    ∧ final_img !! y2 = Some r2' ∧ r2' !! x2 = Some (v2, v2, v2)
    ∧ 0 <= v1 ∧ v1 <= v2 ∧ v2 <= 255.
Proof.
  intros Hy1 Hx1 Hy2 Hx2 Hmax. unfold process_heatmap.
  destruct (Contrast_enhance_Some (map (map np_max3) img_array) (25 # 10))
    as [mean ->].
  { apply concat_fmap_nonempty. by eapply concat_nonempty. }
  simpl.
  set (f := λ v, blend_value 0 (blend_value mean (np_max3 v) (25 # 10)) (18 # 10)).
  exists (map (map (λ p, (f p, f p, f p))) img_array),
    (map (λ p, (f p, f p, f p)) r1), (map (λ p, (f p, f p, f p)) r2),
    (f p1), (f p2).
  split.
  { f_equal. unfold convert_RGB, Brightness_enhance.
    rewrite !map_map. apply map_ext. intros row. by rewrite !map_map. }
  split; [by rewrite list_lookup_fmap, Hy1|].
  split; [by rewrite list_lookup_fmap, Hx1|].
  split; [by rewrite list_lookup_fmap, Hy2|].
  split; [by rewrite list_lookup_fmap, Hx2|].
  unfold f. split; [by apply blend_value_clipped|].
  split; [|by apply blend_value_clipped].
  apply blend_value_mono; [done|]. by apply blend_value_mono.
Qed.

Lemma process_heatmap_ordered_witness :
  ∃ final_img r1' r2' v1 v2,
    process_heatmap [[(0, 0, 0); (10, 200, 3)]; [(255, 0, 0); (20, 20, 90)]]
    = Some final_img
    ∧ final_img !! 1%nat = Some r1' ∧ r1' !! 1%nat = Some (v1, v1, v1)
    ∧ final_img !! 0%nat = Some r2' ∧ r2' !! 1%nat = Some (v2, v2, v2)
    ∧ 0 <= v1 ∧ v1 <= v2 ∧ v2 <= 255.
Proof.
  apply (process_heatmap_ordered
           [[(0, 0, 0); (10, 200, 3)]; [(255, 0, 0); (20, 20, 90)]]
           1 1 0 1 [(255, 0, 0); (20, 20, 90)] [(0, 0, 0); (10, 200, 3)]
           (20, 20, 90) (10, 200, 3)).
  - reflexivity.
  - reflexivity.
  - reflexivity.
  - reflexivity.
  - by vm_compute.
Defined.

(** * The decoders keep the shape of the grid *)

Lemma Contrast_enhance_shape (image enhanced : list (list Z)) factor :
  Contrast_enhance image factor = Some enhanced →
  Forall2 (λ row r, length row = length r) image enhanced.
Proof.
  unfold Contrast_enhance. intros He.
  destruct (stat_mean image) as [m|]; [|done].
  simpl in He. injection He as <-.
  apply Forall2_fmap_r, Forall_Forall2_diag, Forall_forall.
  intros row _. simpl. symmetry. apply length_map.
Qed.

Lemma Forall2_same_length_trans {A B C} (l : list (list A)) (k : list (list B))
    (m : list (list C)) :
  Forall2 (λ row r, length row = length r) l k →
  Forall2 (λ row r, length row = length r) k m →
  Forall2 (λ row r, length row = length r) l m.
Proof.
  intros Hlk. revert m. induction Hlk as [|x y l k Hxy Hlk IH]; intros m Hkm.
  - apply Forall2_nil_inv_l in Hkm as ->. constructor.
  - apply Forall2_cons_inv_l in Hkm as (z & m' & Hyz & Hkm & ->).
    constructor; [congruence|by apply IH].
Qed.

Lemma fmap_same_shape {A B} (f : A → B) (image : list (list A)) :
  Forall2 (λ row r, length row = length r) image (map (map f) image).
Proof.
  apply Forall2_fmap_r, Forall_Forall2_diag, Forall_forall.
  intros row _. simpl. symmetry. apply length_map.
Qed.

(** X15.  Whichever decoder produces an image, the image has one pixel for every
    pixel of the grid: as many rows, and in each row as many cells. *)
Theorem decoders_keep_shape (color_mapping : gmap nat mapping_entry)
    (kmeans_model : list centroid) (img_array final_img : list (list pixel)) :
  decode_atlas_to_lightmap_kmeans color_mapping kmeans_model img_array
    = Some final_img
  ∨ process_grayscale_atlas img_array = Some final_img
  ∨ process_heatmap img_array = Some final_img →
  Forall2 (λ row r, length row = length r) img_array final_img.
Proof.
  intros [H|[H|H]].
  - unfold decode_atlas_to_lightmap_kmeans in H.
    destruct (lightmap_array _ _ _) as [lm|] eqn:Hlm; [|done]. simpl in H.
    destruct (Contrast_enhance lm _) as [enhanced|] eqn:He; [|done].
    simpl in H. injection H as <-.
    eapply Forall2_same_length_trans; [|apply fmap_same_shape].
    eapply Forall2_same_length_trans; [|by eapply Contrast_enhance_shape].
    unfold lightmap_array in Hlm. apply mapM_Some_1 in Hlm.
    eapply Forall2_impl; [exact Hlm|]. intros row r Hr. simpl in Hr.
    by apply length_mapM in Hr.
  - unfold process_grayscale_atlas in H.
    destruct (Contrast_enhance _ _) as [enhanced|] eqn:He; [|done].
    simpl in H. injection H as <-.
    eapply Forall2_same_length_trans; [|apply fmap_same_shape].
    eapply Forall2_same_length_trans; [|by eapply Contrast_enhance_shape].
    apply fmap_same_shape.
  - unfold process_heatmap in H.
    destruct (Contrast_enhance _ _) as [enhanced|] eqn:He; [|done].
    simpl in H. injection H as <-.
    eapply Forall2_same_length_trans; [|apply fmap_same_shape].
    eapply Forall2_same_length_trans; [|apply fmap_same_shape].
    eapply Forall2_same_length_trans; [|by eapply Contrast_enhance_shape].
    apply fmap_same_shape.
Qed.

Lemma decoders_keep_shape_witness :
  Forall2 (λ row r, length row = length r)
    [[(0, 0, 0); (10, 0, 0)]; [(37, 1, 1); (20, 20, 20)]]
    [[(0, 0, 0); (96, 96, 96)]; [(255, 255, 255); (171, 171, 171)]].
Proof.
  apply (decoders_keep_shape sparse_mapping sixteen_centers
           [[(0, 0, 0); (10, 0, 0)]; [(37, 1, 1); (20, 20, 20)]]).
  right. left. reflexivity.
Defined.

(** * Power curves of the other decoders *)

Lemma search_root_range num den k x :
  0 <= search_root num den k x <= Z.of_nat k.
Proof.
  induction k as [|k IH]; simpl search_root; [lia|].
  destruct (below_root _ _ _ x); lia.
Qed.



(** The search finds the largest level that passes the test. *)
Lemma search_root_ge num den k x n :
  0 <= n <= Z.of_nat k → below_root num den n x = true →
  n <= search_root num den k x.
Proof.
  induction k as [|k IH]; simpl search_root; [lia|].
  intros Hn Hbelow.
  destruct (below_root num den (Z.of_nat (S k)) x) eqn:Hk; [lia|].
  apply IH; [|done].
  destruct (decide (n = Z.of_nat (S k))) as [->|Hne]; [congruence|lia].
Qed.

Lemma gamma_table_length : length gamma_table = 256%nat.
Proof. reflexivity. Qed.

Lemma gamma_table_sorted : StronglySorted Z.le gamma_table.
Proof. apply (bool_decide_unpack _). by vm_compute. Qed.

Lemma gamma_table_bounds :
  Forall (λ iv : nat * Z, Z.of_nat iv.1 <= iv.2 <= 255)
    (imap (λ i v, (i, v)) gamma_table).
Proof. apply (bool_decide_unpack _). by vm_compute. Qed.

(** X16.  The gamma table of the night-lights processor has 256 entries; it maps
    0 to 0 and 255 to 255, never decreases, and sends no level below
    itself: with gamma 0.8 every level is kept or brightened. *)
Theorem gamma_table_curve (i j : nat) (a b : Z) :
  (i ≤ j)%nat →
  gamma_table !! i = Some a →
  gamma_table !! j = Some b →
  length gamma_table = 256%nat
  ∧ Z.of_nat i <= a ∧ a <= b ∧ b <= 255
  ∧ gamma_table !! 0%nat = Some 0
  ∧ gamma_table !! 255%nat = Some 255.
Proof.
  intros Hij Hi Hj. split; [apply gamma_table_length|].
  pose proof gamma_table_bounds as Hb. rewrite Forall_forall in Hb.
  assert (∀ k v, gamma_table !! k = Some v → Z.of_nat k <= v <= 255) as Hbound.
  { intros k v Hk. apply (Hb (k, v)).
    apply list_elem_of_lookup. exists k. by rewrite list_lookup_imap, Hk. }
  split; [by apply Hbound|]. split.
  - destruct (decide (i = j)) as [->|Hne]; [assert (a = b) by congruence; lia|].
    apply (StronglySorted_lookup_lt Z.le gamma_table i j);
      [apply gamma_table_sorted|done|done|lia].
  - split; [by eapply Hbound|]. split; reflexivity.
Qed.

Lemma gamma_table_curve_witness :
  length gamma_table = 256%nat
  ∧ Z.of_nat 1 <= 3 ∧ 3 <= 146 ∧ 146 <= 255
  ∧ gamma_table !! 0%nat = Some 0
  ∧ gamma_table !! 255%nat = Some 255.
Proof.
  apply (gamma_table_curve 1 128 3 146).
  - lia.
  - reflexivity.
  - reflexivity.
Defined.




(** X18.  Contrary to what a gamma above 1 suggests, the curve lifts every
    level: on [0, 255] the intensity is never below the brightness rounded
    down. *)
Theorem brightness_to_intensity_lifts (b : Q) :
  (0 <= b)%Q → (b <= 255)%Q →
  ∃ v, brightness_to_intensity b = Some v ∧ Qfloor b <= v.
Proof.
  intros H0 H255. unfold brightness_to_intensity.
  destruct (Qlt_le_dec b 0) as [Hneg|_].
  { exfalso. apply (Qlt_irrefl 0). eapply Qle_lt_trans; [exact H0|exact Hneg]. }
  eexists. split; [done|].
  assert (0 <= Qfloor b <= 255) as Hn.
  { split.
    - rewrite <- (Qfloor_Z 0). by apply Qfloor_resp_le.
    - rewrite <- (Qfloor_Z 255). by apply Qfloor_resp_le. }
  pose proof (search_root_range 5 11 255 (b / 255)) as Hr.
  assert (Qfloor b <= search_root 5 11 255 (b / 255)) as Hge; [|lia].
  apply search_root_ge; [lia|].
  unfold below_root. apply Qle_bool_iff.
  set (x := (b / 255)%Q). set (a := (inject_Z (Qfloor b) / 255)%Q).
  assert (0 <= a)%Q as Ha0.
  { unfold a, Qdiv. apply Qmult_le_0_compat; [|done].
    rewrite <- (Zle_Qle 0). lia. }
  assert (a <= x)%Q as Hax.
  { unfold a, x, Qdiv. apply Qmult_le_compat_r; [apply Qfloor_le|done]. }
  assert (0 <= x)%Q as Hx0 by by eapply Qle_trans.
  assert (x <= 1)%Q as Hx1.
  { unfold x. apply Qle_shift_div_r; [done|]. by rewrite Qmult_1_l. }
  change (Qpower_positive a 11 <= Qpower_positive x 5)%Q.
  eapply Qle_trans; [by apply (Qpower_positive_le a x 11)|].
  change 11%positive with (5 + 6)%positive. rewrite Qpower_plus_positive.
  rewrite <- (Qmult_1_r (Qpower_positive x 5)) at 2.
  rewrite !(Qmult_comm (Qpower_positive x 5)).
  apply Qmult_le_compat_r; [|by apply Qpower_pos_positive].
  rewrite <- (Qpower_positive_1 6). by apply Qpower_positive_le.
Qed.

Lemma brightness_to_intensity_lifts_witness :
  ∃ v, brightness_to_intensity (100 # 3) = Some v ∧ Qfloor (100 # 3) <= v.
Proof.
  apply (brightness_to_intensity_lifts (100 # 3)); by vm_compute.
Defined.

(** X19.  The colour recorded for a bound cluster is its centroid with every
    channel truncated: for a centroid with non-negative channels, each
    recorded channel is at most the centroid's and less than one below. *)
Theorem mapping_rgb_truncates_centroid (cluster_centers : list centroid)
    (cluster_labels : list nat) (final_mapping : gmap nat mapping_entry)
    (id : nat) (entry : mapping_entry) (cr cg cb : Q) :
  analyze_atlas_with_kmeans cluster_centers cluster_labels = Some final_mapping →
  final_mapping !! id = Some entry →
  cluster_centers !! id = Some (cr, cg, cb) →
  (0 <= cr)%Q → (0 <= cg)%Q → (0 <= cb)%Q →
  rgb entry = (Qfloor cr, Qfloor cg, Qfloor cb)
  ∧ (inject_Z (rgb entry).1.1 <= cr < inject_Z ((rgb entry).1.1 + 1))%Q
  ∧ (inject_Z (rgb entry).1.2 <= cg < inject_Z ((rgb entry).1.2 + 1))%Q
  ∧ (inject_Z (rgb entry).2 <= cb < inject_Z ((rgb entry).2 + 1))%Q.
Proof.
  intros Hfm Hentry Hcenter Hr Hg Hb.
  destruct (analyze_atlas_with_kmeans_ranks _ _ _ Hfm)
    as (cm & Hcm & _ & _ & Hbound).
  apply Hbound in Hentry as (i & d & row & Hi & _ & ->).
  destruct (color_mapping_data _ _ _ _ id d Hcm) as (c & n & Hc & ->).
  { rewrite <- brightness_sorted_perm. by eapply list_elem_of_lookup_2. }
  assert (Some c = Some (cr, cg, cb)) as [= ->].
  { rewrite <- Hc. exact Hcenter. }
  simpl. rewrite !py_int_nonneg by done.
  split; [done|]. simpl.
  repeat split; (apply Qfloor_le || apply Qlt_floor).
Qed.

Lemma mapping_rgb_truncates_centroid_witness :
  rgb {| rgb := (255, 255, 255); category := "Black 2"; intensity := 8;
         ratio_range := "0.01-0.06" |}
  = (Qfloor 255, Qfloor 255, Qfloor 255)
  ∧ (inject_Z 255 <= 255 < inject_Z (255 + 1))%Q
  ∧ (inject_Z 255 <= 255 < inject_Z (255 + 1))%Q
  ∧ (inject_Z 255 <= 255 < inject_Z (255 + 1))%Q.
Proof.
  apply (mapping_rgb_truncates_centroid sixteen_centers sparse_labels
           sparse_mapping 15
           {| rgb := (255, 255, 255); category := "Black 2"; intensity := 8;
              ratio_range := "0.01-0.06" |} 255 255 255);
    reflexivity || by vm_compute.
Defined.

(** X20.  Pixels follow their clusters: in the lightmap and in the saved
    image of the classified decoder, a pixel assigned to a cluster of
    strictly smaller [float64] brightness than the cluster of another pixel
    is not brighter than it, provided the brighter cluster is bound to a
    category other than the border. *)
Theorem darker_cluster_pixels_not_brighter (cluster_centers : list centroid)
    (cluster_labels : list nat) (color_mapping : gmap nat mapping_entry)
    (img_array : list (list pixel)) (y1 x1 y2 x2 : nat) (r1 r2 : list pixel)
    (p1 p2 : pixel) (ca cb : centroid) (eb : mapping_entry) :
  analyze_atlas_with_kmeans cluster_centers cluster_labels = Some color_mapping →
  img_array !! y1 = Some r1 → r1 !! x1 = Some p1 →
  img_array !! y2 = Some r2 → r2 !! x2 = Some p2 →
  cluster_centers !! find_closest_cluster p1 cluster_centers = Some ca →
  cluster_centers !! find_closest_cluster p2 cluster_centers = Some cb →
  (centroid_brightness ca < centroid_brightness cb)%Q →
  color_mapping !! find_closest_cluster p2 cluster_centers = Some eb →
  is_border eb = false →
  ∃ lm l1 l2 v1 v2 final_img f1 f2 w1 w2,
    lightmap_array color_mapping cluster_centers img_array = Some lm
    ∧ lm !! y1 = Some l1 ∧ l1 !! x1 = Some v1
    ∧ lm !! y2 = Some l2 ∧ l2 !! x2 = Some v2
    ∧ v1 <= v2
    ∧ decode_atlas_to_lightmap_kmeans color_mapping cluster_centers img_array
      = Some final_img
    ∧ final_img !! y1 = Some f1 ∧ f1 !! x1 = Some (w1, w1, w1)
    ∧ final_img !! y2 = Some f2 ∧ f2 !! x2 = Some (w2, w2, w2)
    ∧ w1 <= w2.
Proof.
  intros Hfm Hy1 Hx1 Hy2 Hx2 Hca Hcb Hlt Heb Hborder.
  pose proof (analyze_atlas_with_kmeans_fits _ _ _ Hfm) as Hfits.
  set (f := pixel_intensity color_mapping cluster_centers).
  assert (f p1 <= f p2) as Hle.
  { unfold f, pixel_intensity. rewrite Heb.
    unfold is_border in Hborder. apply bool_decide_eq_false in Hborder.
    rewrite (decide_False (P := category eb = _)) by done.
    destruct (color_mapping !! find_closest_cluster p1 cluster_centers)
      as [ea|] eqn:Hea.
    - destruct (darker_cluster_lower_rank _ _ _ _ _ _ _ _ _
                  Hfm Hca Hcb Hea Heb Hlt)
        as (ia & ib & rowa & rowb & Hrank & Hrowa & Hrowb & _ & Hia & Hcat & Hib).
      assert (intensity ea <= intensity eb) as Hint.
      { rewrite Hia, Hib. apply (table_rows_monotone ia ib); [done| |done|done].
        eapply not_border_row_below; [done|done|].
        unfold is_border. by rewrite bool_decide_eq_false. }
      case_decide; [|done]. specialize (Hfits _ _ Hea). lia.
    - by apply (Hfits _ _ Heb). }
  unfold decode_atlas_to_lightmap_kmeans.
  rewrite (lightmap_array_Some _ _ _ Hfits). simpl. fold f.
  destruct (Contrast_enhance_Some (map (map f) img_array) (13 # 10)) as [mean ->].
  { apply concat_fmap_nonempty. by eapply concat_nonempty. }
  simpl. set (g := λ v, blend_value mean v (13 # 10)).
  exists (map (map f) img_array), (map f r1), (map f r2), (f p1), (f p2),
    (convert_RGB (map (map g) (map (map f) img_array))),
    (map (λ v, (v, v, v)) (map g (map f r1))),
    (map (λ v, (v, v, v)) (map g (map f r2))),
    (g (f p1)), (g (f p2)).
  split; [done|].
  split; [by rewrite list_lookup_fmap, Hy1|].
  split; [by rewrite list_lookup_fmap, Hx1|].
  split; [by rewrite list_lookup_fmap, Hy2|].
  split; [by rewrite list_lookup_fmap, Hx2|].
  split; [done|]. split; [done|]. unfold convert_RGB.
  split; [by rewrite !list_lookup_fmap, Hy1|].
  split; [by rewrite !list_lookup_fmap, Hx1|].
  split; [by rewrite !list_lookup_fmap, Hy2|].
  split; [by rewrite !list_lookup_fmap, Hx2|].
  by apply blend_value_mono.
Qed.

Lemma darker_cluster_pixels_not_brighter_witness :
  ∃ lm l1 l2 v1 v2 final_img f1 f2 w1 w2,
    lightmap_array sixteen_mapping sixteen_centers
      [[(36, 30, 36); (80, 90, 85)]]
    = Some lm
    ∧ lm !! 0%nat = Some l1 ∧ l1 !! 0%nat = Some v1
    ∧ lm !! 0%nat = Some l2 ∧ l2 !! 1%nat = Some v2
    ∧ v1 <= v2
    ∧ decode_atlas_to_lightmap_kmeans sixteen_mapping sixteen_centers
        [[(36, 30, 36); (80, 90, 85)]]
      = Some final_img
    ∧ final_img !! 0%nat = Some f1 ∧ f1 !! 0%nat = Some (w1, w1, w1)
    ∧ final_img !! 0%nat = Some f2 ∧ f2 !! 1%nat = Some (w2, w2, w2)
    ∧ w1 <= w2.
Proof.
  apply (darker_cluster_pixels_not_brighter sixteen_centers sixteen_labels
           sixteen_mapping [[(36, 30, 36); (80, 90, 85)]] 0 0 0 1
           [(36, 30, 36); (80, 90, 85)] [(36, 30, 36); (80, 90, 85)]
           (36, 30, 36) (80, 90, 85) (34, 34, 34)%Q (85, 85, 85)%Q
           {| rgb := (85, 85, 85); category := "Blue 2"; intensity := 48;
              ratio_range := "0.33-0.58" |});
    reflexivity || by vm_compute.
Defined.
